(** * custom-json-stringify: a shallow embedding of [src/lib/customjson.ts]

    The development follows the source file section by section:
    - texts (JavaScript strings) and the language built-ins the source
      calls ([String(num)], [Number.isInteger], [toISOString], [repeat],
      [padStart], [join]);
    - the decimal marker: [Double], [isDoubleNumber], [markAsDouble];
    - [escapeString] and [serializeValue];
    - [prettyPrint] and [stringify];
    - the properties of the specification. *)

From Stdlib Require Import ZArith NArith List Bool Lia String Ascii.
From stdpp Require Import base option list gmap.
Import ListNotations.

Local Open Scope Z_scope.

(** ** Texts

    A JavaScript string is a sequence of UTF-16 code units.  The source
    inspects strings one code unit at a time ([json[i]], the regular
    expression of [escapeString] has no [u] flag), so a text is a list of
    code units, each a natural number. *)

Abbreviation char := N (only parsing).
Abbreviation text := (list char) (only parsing).

(** [lit] reads a literal of the source as a text. *)
Definition lit (s : string) : text := map N_of_ascii (list_ascii_of_string s).

(** The characters the source names, by code unit: the double quote, the
    backslash, the brackets and separators of JSON, the white space and the
    characters of the short escapes. *)
Module Ch.
Definition dquote : char := 34%N.
Definition backslash : char := 92%N.
Definition lbrace : char := 123%N.
Definition rbrace : char := 125%N.
Definition lbracket : char := 91%N.
Definition rbracket : char := 93%N.
Definition comma : char := 44%N.
Definition colon : char := 58%N.
Definition space : char := 32%N.
Definition newline : char := 10%N.
Definition tab : char := 9%N.
Definition cr : char := 13%N.
Definition backspace : char := 8%N.
Definition formfeed : char := 12%N.
Definition zero : char := 48%N.
Definition minus : char := 45%N.
Definition plus : char := 43%N.
Definition dot : char := 46%N.
End Ch.

(** ** Thrown errors

    A call either returns or throws.  The source throws the [TypeError] of
    [Double]; the language throws the [RangeError] of
    [String.prototype.repeat] and of [Date.prototype.toISOString], and the
    [TypeError] of an assignment that strict code cannot make; a [toJSON]
    method of a value may throw anything, [Thrown what] being a thrown
    value that is none of the two. *)

Inductive error : Type := TypeError | RangeError | Thrown (what : text).

Inductive completion (A : Type) : Type :=
  | Ok (a : A)
  | Throw (e : error).
Arguments Ok {A} a.
Arguments Throw {A} e.

(** Sequencing: [x ← r; k] runs [k] on the value [r] returns and passes on
    what [r] throws. *)
#[global] Instance completion_bind : MBind completion := fun A B k r =>
  match r with
  | Ok a => k a
  | Throw e => Throw e
  end.

(** ** Built-ins on texts *)

(** [Array.prototype.join]: the elements separated by [sep]. *)
Fixpoint join (sep : text) (parts : list text) : text :=
  match parts with
  | [] => []
  | [p] => p
  | p :: ps => p ++ sep ++ join sep ps
  end.

(** [String.prototype.repeat]: a negative count throws a [RangeError]. *)
Definition str_repeat (s : text) (count : Z) : completion text :=
  if count <? 0 then Throw RangeError
  else Ok (concat (repeat s (Z.to_nat count))).

(** [String.prototype.padStart] with a one-character filler. *)
Definition padStart (width : nat) (fill : char) (s : text) : text :=
  repeat fill (width - length s)%nat ++ s.

(** The digit of a value below the radix, as the lower-case character that
    [Number.prototype.toString(radix)] uses. *)
Definition digit_char (d : N) : char :=
  (if d <? 10 then 48 + d else 87 + d)%N.

Fixpoint to_radix_aux (fuel : nat) (radix n : N) (acc : text) : text :=
  match fuel with
  | O => acc
  | S fuel' =>
      let acc' := digit_char (n mod radix) :: acc in
      if (n / radix =? 0)%N then acc'
      else to_radix_aux fuel' radix (n / radix) acc'
  end.

(** The digits of a natural number in the given radix (2 to 36), most
    significant first; a number has at most [N.size n] binary digits, so
    the fuel is never exhausted ([to_radix_value]). *)
Definition to_radix (radix n : N) : text :=
  to_radix_aux (S (N.to_nat (N.size n))) radix n [].

Definition decimal (n : N) : text := to_radix 10 n.

(** The value of a digit character and of a sequence of digits, most
    significant first, on top of [init]. *)
Definition digit_value (c : char) : N :=
  (if c <? 58 then c - 48 else c - 87)%N.

Definition digits_value (radix : N) (ds : text) (init : N) : N :=
  fold_left (fun acc c => acc * radix + digit_value c)%N ds init.

(** ** Numbers

    A JavaScript number is an IEEE 754 double.  The source never computes
    with numbers; it classifies them ([isFinite], [Number.isInteger]) and
    prints them ([String(num)]).  ECMAScript defines the printed form of a
    finite non-zero number [x] from the integers [s], [k], [n] with
    [10^(k-1) <= s < 10^k], [x = s * 10^(n-k)] up to rounding and [k] as
    small as possible (Number::toString, step 5).  A finite non-zero number
    is represented by its sign, [s] and [n], with [k] the number of digits
    of [s].  The double fixes the triple with the smallest [k]; a triple
    whose [s] ends in zeros stands for the same number as the one without
    them and is printed like it. *)

Inductive number : Type :=
  | NaN
  | Infinity (neg : bool)
  | Zero (neg : bool)
  | Finite (neg : bool) (s : positive) (n : Z).

Definition isFinite (x : number) : bool :=
  match x with
  | NaN | Infinity _ => false
  | Zero _ | Finite _ _ _ => true
  end.

Definition num_digits (s : positive) : text := decimal (Npos s).
Definition num_k (s : positive) : Z := Z.of_nat (length (num_digits s)).

Fixpoint strip_zeros (fuel : nat) (s : N) : N :=
  match fuel with
  | O => s
  | S fuel' =>
      if (0 <? s)%N && (s mod 10 =? 0)%N then strip_zeros fuel' (s / 10)
      else s
  end.

(** [s] without its trailing zeros: the digits that are printed. *)
Definition significand (s : positive) : N :=
  strip_zeros (N.to_nat (N.size (Npos s))) (Npos s).

(** [Number.isInteger]: finite and without fractional part, that is
    [s * 10^(n-k)] is an integer. *)
Definition Number_isInteger (x : number) : bool :=
  match x with
  | NaN | Infinity _ => false
  | Zero _ => true
  | Finite _ s n =>
      let k := num_k s in
      (k <=? n) || (Zpos s mod 10 ^ (k - n) =? 0)
  end.

Definition sign_text (neg : bool) : text := if neg then [Ch.minus] else [].

(** [String(num)], ECMAScript Number::toString with radix 10. *)
Definition Number_toString (x : number) : text :=
  match x with
  | NaN => lit "NaN"
  | Zero _ => lit "0"
  | Infinity neg => sign_text neg ++ lit "Infinity"
  | Finite neg s n =>
      let ds := decimal (significand s) in
      let k := Z.of_nat (length ds) in
      sign_text neg ++
      if (-5 <=? n) && (n <=? 21) then
        if k <=? n then ds ++ repeat Ch.zero (Z.to_nat (n - k))
        else if 0 <? n then
          firstn (Z.to_nat n) ds ++ [Ch.dot] ++ skipn (Z.to_nat n) ds
        else lit "0." ++ repeat Ch.zero (Z.to_nat (- n)) ++ ds
      else
        let exponent :=
          lit "e" ++ (if n <? 0 then [Ch.minus] else [Ch.plus])
                  ++ decimal (Z.to_N (Z.abs (n - 1))) in
        if k =? 1 then ds ++ exponent
        else firstn 1 ds ++ [Ch.dot] ++ skipn 1 ds ++ exponent
  end.

(** The number written [5], [5.5], [1e21], ... in the source and its
    tests. *)
Definition num_5 : number := Finite false 5 1.
Definition num_5_5 : number := Finite false 55 1.
Definition num_1e21 : number := Finite false 1 22.

(** ** Dates

    A [Date] holds a time value: the milliseconds since the epoch, at most
    8.64e15 in absolute value, or [NaN] for an invalid date ([None] below).
    [toISOString] throws a [RangeError] on an invalid date and otherwise
    prints the UTC fields of the time value as [YYYY-MM-DDTHH:mm:ss.sssZ],
    the year with a sign and six digits when it is outside 0..9999. *)

Definition msPerDay : Z := 86400000.

(** Year, month (1 to 12) and day of the month of a day number counted from
    the epoch, in the proleptic Gregorian calendar. *)
Definition civil_from_days (days : Z) : Z * Z * Z :=
  let z := days + 719468 in
  let era := z / 146097 in
  let doe := z - era * 146097 in
  let yoe := (doe - doe / 1460 + doe / 36524 - doe / 146096) / 365 in
  let doy := doe - (365 * yoe + yoe / 4 - yoe / 100) in
  let mp := (5 * doy + 2) / 153 in
  let d := doy - (153 * mp + 2) / 5 + 1 in
  let m := if mp <? 10 then mp + 3 else mp - 9 in
  (yoe + era * 400 + (if m <=? 2 then 1 else 0), m, d).

Definition pad_num (width : nat) (x : Z) : text :=
  padStart width Ch.zero (decimal (Z.to_N x)).

Definition year_text (y : Z) : text :=
  if (0 <=? y) && (y <=? 9999) then pad_num 4 y
  else (if y <? 0 then [Ch.minus] else [Ch.plus]) ++ pad_num 6 (Z.abs y).

Definition toISOString (tv : option Z) : completion text :=
  match tv with
  | None => Throw RangeError
  | Some t =>
      let '(y, m, d) := civil_from_days (t / msPerDay) in
      let ms := t mod msPerDay in
      Ok (year_text y ++ lit "-" ++ pad_num 2 m ++ lit "-" ++ pad_num 2 d
          ++ lit "T" ++ pad_num 2 (ms / 3600000)
          ++ lit ":" ++ pad_num 2 (ms / 60000 mod 60)
          ++ lit ":" ++ pad_num 2 (ms / 1000 mod 60)
          ++ lit "." ++ pad_num 3 (ms mod 1000) ++ lit "Z")
  end.

(** ** Values

    The values [serializeValue] distinguishes.  Objects are finite trees: the
    source has no cycle detection, and a cyclic value, on which the
    recursion goes on until the stack of the engine is exhausted, has no
    counterpart.  [serializeValue] is the function on a stack that the
    value fits in; the stack of a given size, and what happens on a value
    nested deeper, is the matter of [serializeValue_within].  The properties
    that [serializeValue] reads are data properties: a getter that throws
    has no counterpart.

    - [VFunction], [VSymbol], [VBigInt]: the primitives without a JSON form;
    - [VDouble n toJSON]: the [Number] object that [Double(n)] returns, which
      carries the module's private [DOUBLE_MARKER].  A [Number] object is
      extensible and inherits from [Number.prototype], so it may come with a
      callable [toJSON]; [toJSON] is then what calling it returns;
    - [VDate tv]: a [Date] with time value [tv];
    - [VCustom ret]: any other object whose [toJSON] is a function, with the
      value [ret] that calling it returns;
    - [VArray items]: an array without [toJSON]; [None] is a hole of a
      sparse array ([[1,,3]], [new Array(3)]);
    - [VObject props]: any other object without the marker, with its own
      enumerable string keys in the order of [Object.keys] and their values;
    - [VMarked props]: an object that [Double] did not make and that
      carries the marker all the same, set to [true]: a spread copy
      [{...Double(5)}] of a wrapper (the marker is an own enumerable
      property, which spread copies), or an object that the symbol, which
      [Object.getOwnPropertySymbols] hands out, was assigned to.  It is a
      plain object, whose [valueOf] and [toString] are those of
      [Object.prototype];
    - [VThrowing e]: an object without the marker whose [toJSON] is a
      function that throws [e]. *)

Unset Elimination Schemes.
Inductive value : Type :=
  | VUndefined
  | VNull
  | VBool (b : bool)
  | VNumber (n : number)
  | VBigInt (z : Z)
  | VString (s : text)
  | VSymbol
  | VFunction
  | VDouble (n : number) (toJSON : option value)
  | VDate (tv : option Z)
  | VCustom (ret : value)
  | VArray (items : list (option value))
  | VObject (props : list (text * value))
  | VMarked (props : list (text * value))
  | VThrowing (e : error).
Set Elimination Schemes.

Inductive js_type : Type :=
  | TUndefined | TObject | TBoolean | TNumber | TBigInt | TString | TSymbol
  | TFunction.

#[global] Instance js_type_eq_dec : EqDecision js_type.
Proof. solve_decision. Defined.

Definition typeof (v : value) : js_type :=
  match v with
  | VUndefined => TUndefined
  | VNull => TObject
  | VBool _ => TBoolean
  | VNumber _ => TNumber
  | VBigInt _ => TBigInt
  | VString _ => TString
  | VSymbol => TSymbol
  | VFunction => TFunction
  | VDouble _ _ | VDate _ | VCustom _ | VArray _ | VObject _ | VMarked _
  | VThrowing _ => TObject
  end.

Definition is_null (v : value) : bool :=
  match v with VNull => true | _ => false end.

(** [value[DOUBLE_MARKER] === true].  Reading a property of [undefined] or
    [null] throws a [TypeError].  The property is read on any object: the
    objects made by [Double] have it, and so has every other object that
    carries the marker. *)
Definition read_marker (v : value) : completion bool :=
  match v with
  | VUndefined | VNull => Throw TypeError
  | VDouble _ _ | VMarked _ => Ok true
  | _ => Ok false
  end.

(** ** The decimal marker *)

Definition Double (n : value) : completion value :=
  if bool_decide (typeof n <> TNumber) then Throw TypeError
  else
    match n with
    | VNumber x => Ok (VDouble x None)
    | _ => Throw TypeError
    end.

(** The conjunction of [isDoubleNumber], with the short-circuit of [&&]. *)
Definition isDoubleNumber (value : value) : completion bool :=
  if bool_decide (typeof value = TObject) then
    if negb (is_null value) then read_marker value else Ok false
  else Ok false.

(** [value.valueOf()] as a number: the number of a [Number] object; the
    [valueOf] of a plain object returns the object itself, which is no
    number. *)
Definition valueOf (v : value) : option number :=
  match v with
  | VDouble n _ => Some n
  | _ => None
  end.

(** ** Objects in the heap

    [markAsDouble] reads [obj[key]] and assigns [obj[key] = ...]; the source
    is a module, so the assignment is strict code and throws a [TypeError]
    where it cannot be made.  An ordinary object has own properties, in the
    order of [Object.keys], and a prototype chain.  A property is a data
    property, with a value and the attribute [writable], or an accessor
    property, with a getter and a setter, either of which may be missing;
    both have the attribute [enumerable].  [inherited] is the prototype
    chain as a read or an assignment sees it: for every key found along the
    chain, the property nearest to the object.  [extensible] is false after
    [Object.preventExtensions], [Object.seal] or [Object.freeze].

    The accessors of the model are the simplest ones: a getter returns the
    same value at every call; what a setter does with a value is its own
    code, and the model keeps the calls made: [setter_calls] lists, in
    order, the key and the value of every call of a setter with the object
    as receiver.  Exotic objects (a [Proxy]) are not modelled. *)

Inductive slot : Type :=
  | Data (v : value) (writable enumerable : bool)
  | Accessor (getter : option value) (setter enumerable : bool).

Record object : Type := {
  own : list (text * slot);
  inherited : list (text * slot);
  extensible : bool;
  setter_calls : list (text * value)
}.

(** The property of a key among [props], if any. *)
Fixpoint property (props : list (text * slot)) (key : text) : option slot :=
  match props with
  | [] => None
  | (k, s) :: props' => if decide (k = key) then Some s else property props' key
  end.

(** What reading a property gives: the value of a data property, what the
    getter returns, [undefined] without a getter. *)
Definition slot_value (s : slot) : value :=
  match s with
  | Data v _ _ => v
  | Accessor getter _ _ => default VUndefined getter
  end.

Definition enumerable (s : slot) : bool :=
  match s with Data _ _ e | Accessor _ _ e => e end.

(** [obj[key]]: the own property, else the inherited one, else
    [undefined]. *)
Definition get (obj : object) (key : text) : value :=
  match property (own obj) key with
  | Some s => slot_value s
  | None =>
      match property (inherited obj) key with
      | Some s => slot_value s
      | None => VUndefined
      end
  end.

(** A key that is an array index, the canonical decimal form of an integer
    below 2^32 - 1: the own keys that are array indices come first, in
    ascending order, and the other keys follow in the order of their
    creation. *)
Definition array_index (key : text) : option N :=
  let n := digits_value 10 key 0 in
  if bool_decide (key = decimal n) && (n <? 4294967295)%N then Some n
  else None.

Fixpoint insert_index (i : N) (key : text) (s : slot)
    (props : list (text * slot)) : list (text * slot) :=
  match props with
  | [] => [(key, s)]
  | (k, s') :: props' =>
      match array_index k with
      | Some j =>
          if (j <? i)%N then (k, s') :: insert_index i key s props'
          else (key, s) :: (k, s') :: props'
      | None => (key, s) :: (k, s') :: props'
      end
  end.

(** The own properties with a new key. *)
Definition create (props : list (text * slot)) (key : text) (s : slot)
  : list (text * slot) :=
  match array_index key with
  | Some i => insert_index i key s props
  | None => props ++ [(key, s)]
  end.

(** The own properties with another property at an existing key, which
    keeps its place. *)
Fixpoint replace (props : list (text * slot)) (key : text) (s : slot)
  : list (text * slot) :=
  match props with
  | [] => []
  | (k, s') :: props' =>
      if decide (k = key) then (k, s) :: props'
      else (k, s') :: replace props' key s
  end.

(** The object after its own properties were changed. *)
Definition with_own (obj : object) (props : list (text * slot)) : object :=
  {| own := props; inherited := inherited obj;
     extensible := extensible obj; setter_calls := setter_calls obj |}.

(** The call of the setter of [key] with [v]; an accessor without setter
    cannot be assigned. *)
Definition call_setter (obj : object) (key : text) (v : value) (setter : bool)
  : completion object :=
  if setter then
    Ok {| own := own obj; inherited := inherited obj;
          extensible := extensible obj;
          setter_calls := setter_calls obj ++ [(key, v)] |}
  else Throw TypeError.

(** [obj[key] = v] in strict code (ECMAScript OrdinarySet): an own data
    property takes the value if it is writable; an accessor, own or
    inherited, has its setter called; an inherited data property that is
    writable, or no property at all, makes a new own property if the object
    is extensible.  In every other case the assignment throws. *)
Definition set (obj : object) (key : text) (v : value) : completion object :=
  match property (own obj) key with
  | Some (Data _ writable enum) =>
      if writable then
        Ok (with_own obj (replace (own obj) key (Data v true enum)))
      else Throw TypeError
  | Some (Accessor _ setter _) => call_setter obj key v setter
  | None =>
      match property (inherited obj) key with
      | Some (Accessor _ setter _) => call_setter obj key v setter
      | Some (Data _ false _) => Throw TypeError
      | Some (Data _ true _) | None =>
          if extensible obj then
            Ok (with_own obj (create (own obj) key (Data v true true)))
          else Throw TypeError
      end
  end.

(** [Object.keys(obj)] with [obj[key]] for each key: what the object branch
    of [serializeValue] reads of an object. *)
Definition entries (obj : object) : list (text * value) :=
  omap (fun ks : text * slot =>
          if enumerable ks.2 then Some (ks.1, slot_value ks.2) else None)
       (own obj).

(** The properties of [Object.prototype]: methods, and the accessor
    [__proto__], whose getter returns the prototype. *)
Definition method : slot := Data VFunction true false.

Definition Object_prototype : list (text * slot) :=
  [ (lit "constructor", method);
    (lit "__defineGetter__", method);
    (lit "__defineSetter__", method);
    (lit "hasOwnProperty", method);
    (lit "__lookupGetter__", method);
    (lit "__lookupSetter__", method);
    (lit "isPrototypeOf", method);
    (lit "propertyIsEnumerable", method);
    (lit "toString", method);
    (lit "valueOf", method);
    (lit "__proto__", Accessor (Some (VObject [])) true false);
    (lit "toLocaleString", method) ].

(** The object of an object literal [{ key: value, ... }], its keys given
    in the order of [Object.keys]. *)
Definition record (props : list (text * value)) : object :=
  {| own := (fun kv : text * value => (kv.1, Data kv.2 true true)) <$> props;
     inherited := Object_prototype;
     extensible := true;
     setter_calls := [] |}.

(** [Object.freeze(obj)]. *)
Definition freeze (obj : object) : object :=
  {| own := (fun ks : text * slot =>
               (ks.1, match ks.2 with
                      | Data v _ e => Data v false e
                      | accessor => accessor
                      end)) <$> own obj;
     inherited := inherited obj;
     extensible := false;
     setter_calls := setter_calls obj |}.

(** Objects are passed by reference: [markAsDouble] receives a reference,
    mutates the object it points to and returns the reference.  The heap
    maps references to objects. *)
Abbreviation ref := positive (only parsing).
Abbreviation heap := (gmap ref object) (only parsing).

(** The loop of [markAsDouble] over the keys, on the object itself. *)
Fixpoint markAsDouble_loop (obj : object) (keys : list text) : completion object :=
  match keys with
  | [] => Ok obj
  | key :: keys' =>
      let value := get obj key in
      if bool_decide (typeof value = TNumber) then
        d ← Double value;
        obj' ← set obj key d;
        markAsDouble_loop obj' keys'
      else markAsDouble_loop obj keys'
  end.

(** [markAsDouble(obj, ...keys)]: the heap after the call and the returned
    reference, or the exception of an assignment; the heap of a call that
    throws is not kept.  A reference always points to an object; on a
    dangling one the model changes nothing. *)
Definition markAsDouble (h : heap) (obj : ref) (keys : list text)
  : completion (heap * ref) :=
  match h !! obj with
  | None => Ok (h, obj)
  | Some o =>
      o' ← markAsDouble_loop o keys;
      Ok (<[obj := o']> h, obj)
  end.

(** A key at which [markAsDouble] reads and assigns without calling into
    other code and without an exception: no accessor is found at the key,
    and if the key holds a number the assignment stores the wrapper: the
    property is a writable data property, and when it is inherited the
    object is extensible. *)
Definition assignable (obj : object) (key : text) : bool :=
  match property (own obj) key with
  | Some (Data v writable _) =>
      writable || negb (bool_decide (typeof v = TNumber))
  | Some (Accessor _ _ _) => false
  | None =>
      match property (inherited obj) key with
      | Some (Data v writable _) =>
          writable && extensible obj
          || negb (bool_decide (typeof v = TNumber))
      | Some (Accessor _ _ _) => false
      | None => true
      end
  end.

(** An assignable key whose number, if it holds one, is a property of the
    object itself: marking it adds no key to the object. *)
Definition markable (obj : object) (key : text) : bool :=
  match property (own obj) key with
  | Some (Data v writable _) =>
      writable || negb (bool_decide (typeof v = TNumber))
  | Some (Accessor _ _ _) => false
  | None =>
      match property (inherited obj) key with
      | Some (Data v _ _) => negb (bool_decide (typeof v = TNumber))
      | Some (Accessor _ _ _) => false
      | None => true
      end
  end.

(** ** String escaping *)

Definition ESCAPE_MAP : list (char * text) :=
  [ (Ch.dquote, [Ch.backslash; Ch.dquote]);
    (Ch.backslash, [Ch.backslash; Ch.backslash]);
    (Ch.backspace, Ch.backslash :: lit "b");
    (Ch.formfeed, Ch.backslash :: lit "f");
    (Ch.newline, Ch.backslash :: lit "n");
    (Ch.cr, Ch.backslash :: lit "r");
    (Ch.tab, Ch.backslash :: lit "t") ].

(** [ESCAPE_MAP[char]], [undefined] when the character is no key. *)
Fixpoint escape_lookup (map : list (char * text)) (c : char) : option text :=
  match map with
  | [] => None
  | (k, e) :: map' => if (k =? c)%N then Some e else escape_lookup map' c
  end.

(** The character class of the regular expression: the double quote, the
    backslash and the control characters 0x00 to 0x1F. *)
Definition needs_escape (c : char) : bool :=
  (c =? Ch.dquote)%N || (c =? Ch.backslash)%N || (c <=? 31)%N.

(** The replacement callback: the known escape first, else the unicode
    escape. *)
Definition escape_char (c : char) : text :=
  match escape_lookup ESCAPE_MAP c with
  | Some e => e
  | None => Ch.backslash :: lit "u" ++ padStart 4 Ch.zero (to_radix 16 c)
  end.

Definition escapeString (str : text) : text :=
  flat_map (fun c => if needs_escape c then escape_char c else [c]) str.

Definition quoted (body : text) : text := Ch.dquote :: body ++ [Ch.dquote].

(** ** Value serialization *)

Section MapM.
Context {A B : Type} (f : A -> completion B).

(** [Array.prototype.map] with a callback that may throw: the elements
    are visited in order and the first exception ends the call. *)
Fixpoint mapM (l : list A) : completion (list B) :=
  match l with
  | [] => Ok []
  | x :: l' => y ← f x; ys ← mapM l'; Ok (y :: ys)
  end.
End MapM.

(** [String(value)] on a boolean. *)
Definition String_bool (b : bool) : text :=
  if b then lit "true" else lit "false".

(** The text of a [Double]-wrapped number (the branch of [serializeValue]
    under [isDoubleNumber]). *)
Definition serializeDouble (num : number) : text :=
  if negb (isFinite num) then lit "null"
  else if Number_isInteger num then Number_toString num ++ lit ".0"
  else Number_toString num.

(** The text of a plain number. *)
Definition serializeNumber (value : number) : text :=
  if negb (isFinite value) then lit "null" else Number_toString value.

(** [items.join(sep)] on an array of strings that may have holes: a hole
    reads as [undefined], which [join] prints as the empty string. *)
Definition join_items (sep : text) (items : list (option text)) : text :=
  join sep (map (default []) items).

(** [.filter(pair => pair !== null)]. *)
Definition filter_pairs (pairs : list (option text)) : list text :=
  omap id pairs.

(** [serializeValue]: [Ok None] is the returned [undefined].  The cases
    follow the order of the tests of the source, which matters for the
    objects: the marker is tested before [Date], [Date] before [toJSON],
    and [toJSON] before arrays and plain objects.  In the array case [map]
    skips the holes and leaves them in its result.  On a marked object that
    is no [Number] object, [valueOf] returns the object itself, which
    [isFinite] converts to [NaN] (through [toString]), so the branch of the
    marker returns [null]. *)
Fixpoint serializeValue (value : value) : completion (option text) :=
  match value with
  | VUndefined | VFunction | VSymbol => Ok None
  | VNull => Ok (Some (lit "null"))
  | VBool b => Ok (Some (String_bool b))
  | VString s => Ok (Some (quoted (escapeString s)))
  | VDouble num _ => Ok (Some (serializeDouble num))
  | VMarked _ => Ok (Some (lit "null"))
  | VNumber n => Ok (Some (serializeNumber n))
  | VDate tv => iso ← toISOString tv; Ok (Some (quoted iso))
  | VCustom ret => serializeValue ret
  | VThrowing e => Throw e
  | VArray elems =>
      items ← mapM (fun elem =>
                 match elem with
                 | None => Ok None
                 | Some item =>
                     r ← serializeValue item; Ok (Some (default (lit "null") r))
                 end) elems;
      Ok (Some (lit "[" ++ join_items (lit ",") items ++ lit "]"))
  | VObject props =>
      pairs ← mapM (fun '(key, v) =>
                 serializedValue ← serializeValue v;
                 match serializedValue with
                 | None => Ok None
                 | Some sv =>
                     Ok (Some (quoted (escapeString key) ++ lit ":" ++ sv))
                 end) props;
      Ok (Some (lit "{" ++ join (lit ",") (filter_pairs pairs) ++ lit "}"))
  | VBigInt _ => Ok None
  end.

(** The tests of [serializeValue] on a value: [value === undefined],
    [value instanceof Date], [Array.isArray(value)], and [obj.toJSON] when
    it is a function, as what calling it returns or throws.  Every [Date]
    inherits [Date.prototype.toJSON], which returns the ISO string, or
    [null] for an invalid date. *)
Definition is_undefined (v : value) : bool :=
  match v with VUndefined => true | _ => false end.

Definition is_Date (v : value) : bool :=
  match v with VDate _ => true | _ => false end.

Definition Array_isArray (v : value) : bool :=
  match v with VArray _ => true | _ => false end.

Definition toJSON_of (v : value) : option (completion value) :=
  match v with
  | VDouble _ toJSON => Ok <$> toJSON
  | VDate tv =>
      Some (Ok (match toISOString tv with
                | Ok iso => VString iso
                | Throw _ => VNull
                end))
  | VCustom ret => Some (Ok ret)
  | VThrowing e => Some (Throw e)
  | _ => None
  end.

(** ** Pretty printing *)

Definition is_open (c : option char) : bool :=
  bool_decide (c = Some Ch.lbrace) || bool_decide (c = Some Ch.lbracket).

Definition is_close (c : option char) : bool :=
  bool_decide (c = Some Ch.rbrace) || bool_decide (c = Some Ch.rbracket).

(** [result.push(x)] where [x] may be [undefined] ([json[++i]] past the
    end): [join] prints an [undefined] element as the empty string. *)
Definition pushed (x : option char) : text :=
  match x with Some c => [c] | None => [] end.

(** The [for] loop of [prettyPrint]: [i], [depth], [inString] and [result]
    are the variables of the source, [json !! i] is [json[i]].  Every round
    advances [i], so [length json] rounds of fuel are enough. *)
Fixpoint prettyPrint_loop (fuel : nat) (json indent : text) (i : nat)
    (depth : Z) (inString : bool) (result : list text)
  : completion (list text) :=
  match fuel with
  | O => Ok result
  | S fuel =>
      match json !! i with
      | None => Ok result
      | Some char =>
          if inString then
            if decide (char = Ch.backslash) then
              prettyPrint_loop fuel json indent (i + 2) depth inString
                (result ++ [[char]; pushed (json !! (i + 1)%nat)])
            else if decide (char = Ch.dquote) then
              prettyPrint_loop fuel json indent (i + 1) depth false
                (result ++ [[char]])
            else
              prettyPrint_loop fuel json indent (i + 1) depth inString
                (result ++ [[char]])
          else if decide (char = Ch.dquote) then
            prettyPrint_loop fuel json indent (i + 1) depth true
              (result ++ [[char]])
          else if is_open (Some char) then
            let nextChar := json !! (i + 1)%nat in
            if negb (is_close nextChar) then
              ind ← str_repeat indent (depth + 1);
              prettyPrint_loop fuel json indent (i + 1) (depth + 1) inString
                (result ++ [[char]; [Ch.newline]; ind])
            else
              prettyPrint_loop fuel json indent (i + 1) depth inString
                (result ++ [[char]])
          else if is_close (Some char) then
            let prevChar := match i with O => None | S j => json !! j end in
            if negb (is_open prevChar) then
              ind ← str_repeat indent (depth - 1);
              prettyPrint_loop fuel json indent (i + 1) (depth - 1) inString
                (result ++ [[Ch.newline]; ind; [char]])
            else
              prettyPrint_loop fuel json indent (i + 1) depth inString
                (result ++ [[char]])
          else if decide (char = Ch.comma) then
            ind ← str_repeat indent depth;
            prettyPrint_loop fuel json indent (i + 1) depth inString
              (result ++ [[Ch.comma; Ch.newline]; ind])
          else if decide (char = Ch.colon) then
            prettyPrint_loop fuel json indent (i + 1) depth inString
              (result ++ [[Ch.colon; Ch.space]])
          else
            prettyPrint_loop fuel json indent (i + 1) depth inString
              (result ++ [[char]])
      end
  end.

Definition prettyPrint (json indent : text) : completion text :=
  result ← prettyPrint_loop (length json) json indent 0 0 false [];
  Ok (concat result).

(** ** The [space] parameter

    [Space = string | number | null]; an omitted argument is [undefined]. *)

Inductive Space : Type :=
  | SpaceAbsent
  | SpaceNum (n : number)
  | SpaceStr (s : text).

(** [!space]: [undefined], [null], [0], [-0], [NaN] and the empty string
    are falsy. *)
Definition falsy (space : Space) : bool :=
  match space with
  | SpaceAbsent => true
  | SpaceNum (NaN | Zero _) => true
  | SpaceNum _ => false
  | SpaceStr s => bool_decide (s = [])
  end.

(** A finite non-zero number as [m * 10^e] with integers [m] and [e]. *)
Definition scaled (neg : bool) (s : positive) (n : Z) : Z * Z :=
  ((if neg then Z.neg s else Z.pos s), n - num_k s).

(** [x < y] on numbers; false when either is [NaN]. *)
Definition Number_lt (x y : number) : bool :=
  match x, y with
  | NaN, _ | _, NaN => false
  | Infinity nx, Infinity ny => nx && negb ny
  | Infinity nx, _ => nx
  | _, Infinity ny => negb ny
  | Zero _, Zero _ => false
  | Zero _, Finite ny _ _ => negb ny
  | Finite nx _ _, Zero _ => nx
  | Finite nx sx ex, Finite ny sy ey =>
      let '(mx, ex') := scaled nx sx ex in
      let '(my, ey') := scaled ny sy ey in
      let e := Z.min ex' ey' in
      mx * 10 ^ (ex' - e) <? my * 10 ^ (ey' - e)
  end.

(** [Math.min(x, y)] (the sign of a zero result plays no role below). *)
Definition Math_min (x y : number) : number :=
  match x, y with
  | NaN, _ | _, NaN => NaN
  | _, _ => if Number_lt y x then y else x
  end.

Definition num_10 : number := Finite false 1 2.

(** [ToIntegerOrInfinity] on a finite number: truncation towards zero. *)
Definition truncate (neg : bool) (s : positive) (n : Z) : Z :=
  let k := num_k s in
  let magnitude := if k <=? n then Z.pos s * 10 ^ (n - k)
                   else Z.pos s / 10 ^ (k - n) in
  if neg then - magnitude else magnitude.

(** [s.repeat(count)] with a number as count: the count is truncated,
    [NaN] counts as 0, a negative or infinite count throws a [RangeError]. *)
Definition String_repeat (s : text) (count : number) : completion text :=
  match count with
  | NaN | Zero _ => Ok []
  | Infinity _ => Throw RangeError
  | Finite neg m n => str_repeat s (truncate neg m n)
  end.

(** ** Main API *)

(** The replacer is accepted and never consulted. *)
Definition Replacer := option (text -> value -> value).

Definition stringify (value : value) (_replacer : Replacer) (space : Space)
  : completion (option text) :=
  serialized ← serializeValue value;
  match serialized with
  | None => Ok None
  | Some serialized =>
      if falsy space then Ok (Some serialized)
      else
        indent ← match space with
                 | SpaceNum n => String_repeat [Ch.space] (Math_min n num_10)
                 | SpaceStr s => Ok (take 10 s)
                 | SpaceAbsent => Ok (lit "null") (* falsy: not reached *)
                 end;
        if bool_decide (indent = []) then Ok (Some serialized)
        else pretty ← prettyPrint serialized indent; Ok (Some pretty)
  end.

(** The number of an integer literal. *)
Definition num (z : Z) : number :=
  match z with
  | Z0 => Zero false
  | Zpos p => Finite false p (num_k p)
  | Zneg p => Finite true p (num_k p)
  end.

(** ** The scanner of [prettyPrint], one character at a time

    The loop keeps [inString] and skips the character after a backslash by
    advancing [i] twice.  The same scan written on the rest of the text has
    three states: outside a string literal, inside one, and inside one just
    after a backslash.  [prev] is [json[i - 1]] and the head of the rest
    after the current character is [json[i + 1]].  [scan_prettyPrint] below
    proves that [prettyPrint] computes [scan]. *)

Inductive sstate : Type := Out | In | Esc.

(** The state after a character of a string literal. *)
Definition in_string_step (st : sstate) (c : char) : sstate :=
  match st with
  | Esc => In
  | _ => if decide (c = Ch.backslash) then Esc
         else if decide (c = Ch.dquote) then Out else In
  end.

Definition emit (chunk : text) (r : completion text) : completion text :=
  t ← r; Ok (chunk ++ t).

Fixpoint scan (indent : text) (prev : option char) (st : sstate) (depth : Z)
    (rest : text) : completion text :=
  match rest with
  | [] => Ok []
  | c :: rest' =>
      match st with
      | In | Esc =>
          emit [c] (scan indent (Some c) (in_string_step st c) depth rest')
      | Out =>
          if decide (c = Ch.dquote) then
            emit [c] (scan indent (Some c) In depth rest')
          else if is_open (Some c) then
            if negb (is_close (head rest')) then
              ind ← str_repeat indent (depth + 1);
              emit (c :: Ch.newline :: ind)
                   (scan indent (Some c) Out (depth + 1) rest')
            else emit [c] (scan indent (Some c) Out depth rest')
          else if is_close (Some c) then
            if negb (is_open prev) then
              ind ← str_repeat indent (depth - 1);
              emit (Ch.newline :: ind ++ [c])
                   (scan indent (Some c) Out (depth - 1) rest')
            else emit [c] (scan indent (Some c) Out depth rest')
          else if decide (c = Ch.comma) then
            ind ← str_repeat indent depth;
            emit (Ch.comma :: Ch.newline :: ind)
                 (scan indent (Some c) Out depth rest')
          else if decide (c = Ch.colon) then
            emit [Ch.colon; Ch.space] (scan indent (Some c) Out depth rest')
          else emit [c] (scan indent (Some c) Out depth rest')
      end
  end.

(** ** Notions of the specification

    The specification speaks of the string literals of a text, of the white
    space outside them and of the indent unit a [space] parameter
    normalizes to.  These definitions follow its words. *)

(** A text read as JSON splits into tokens: whole string literals (quotes
    included; a backslash escapes the next character) and the single
    characters outside them. *)
Inductive token : Type :=
  | TStr (s : text)
  | TChr (c : char).

Definition token_text (tok : token) : text :=
  match tok with TStr s => s | TChr c => [c] end.

(** [cur] is the part already read of the literal the scan is inside of. *)
Fixpoint tokenize_from (st : sstate) (cur : text) (t : text) : list token :=
  match t with
  | [] => match cur with [] => [] | _ => [TStr cur] end
  | c :: t' =>
      match st with
      | Out =>
          if decide (c = Ch.dquote) then tokenize_from In [c] t'
          else TChr c :: tokenize_from Out [] t'
      | In | Esc =>
          match in_string_step st c with
          | Out => TStr (cur ++ [c]) :: tokenize_from Out [] t'
          | st' => tokenize_from st' (cur ++ [c]) t'
          end
      end
  end.

Definition tokenize (t : text) : list token := tokenize_from Out [] t.

(** The string literals of a text, in order. *)
Definition token_literal (tok : token) : option text :=
  match tok with TStr s => Some s | TChr _ => None end.

Definition literals (t : text) : list text := omap token_literal (tokenize t).

(** The white space of JSON. *)
Definition is_ws (c : char) : bool :=
  bool_decide (c = Ch.space) || bool_decide (c = Ch.newline)
  || bool_decide (c = Ch.tab) || bool_decide (c = Ch.cr).

(** Removal of the white space outside string literals. *)
Fixpoint strip_from (st : sstate) (t : text) : text :=
  match t with
  | [] => []
  | c :: t' =>
      match st with
      | Out =>
          if decide (c = Ch.dquote) then c :: strip_from In t'
          else if is_ws c then strip_from Out t'
          else c :: strip_from Out t'
      | In | Esc => c :: strip_from (in_string_step st c) t'
      end
  end.

Definition strip_ws (t : text) : text := strip_from Out t.

(** The reflow with the empty indent unit, said without the depth and the
    exceptions of the pass: outside the string literals, a newline before a
    closing bracket that does not come directly after an opening bracket, a
    newline after an opening bracket that does not come directly before a
    closing bracket and after a comma, a space after a colon, and every
    character of the text as it is. *)
Fixpoint reflow_empty (prev : option char) (st : sstate) (t : text) : text :=
  match t with
  | [] => []
  | c :: t' =>
      match st with
      | In | Esc => c :: reflow_empty (Some c) (in_string_step st c) t'
      | Out =>
          if decide (c = Ch.dquote) then c :: reflow_empty (Some c) In t'
          else
            (if is_close (Some c) && negb (is_open prev) then [Ch.newline]
             else [])
            ++ c
            :: (if is_open (Some c) && negb (is_close (head t'))
                then [Ch.newline]
                else if decide (c = Ch.comma) then [Ch.newline]
                else if decide (c = Ch.colon) then [Ch.space]
                else [])
            ++ reflow_empty (Some c) Out t'
      end
  end.

(** What the reflow pass may put before or after a character outside the
    literals: nothing, one space, or a newline and some copies of the
    indent unit. *)
Definition filler (indent : text) (x : text) : Prop :=
  x = [] \/ x = [Ch.space]
  \/ exists d : nat, x = Ch.newline :: concat (repeat indent d).

(** The output of the reflow pass for one token: a literal as it is, a
    character outside the literals between two fillers. *)
Definition chunk_of (indent : text) (tok : token) (chunk : text) : Prop :=
  match tok with
  | TStr s => chunk = s
  | TChr c => exists pre post,
      chunk = pre ++ c :: post /\ filler indent pre /\ filler indent post
  end.

(** No white space outside the string literals. *)
Fixpoint outer_ws_free (st : sstate) (t : text) : bool :=
  match t with
  | [] => true
  | c :: t' =>
      match st with
      | Out =>
          if decide (c = Ch.dquote) then outer_ws_free In t'
          else negb (is_ws c) && outer_ws_free Out t'
      | In | Esc => outer_ws_free (in_string_step st c) t'
      end
  end.

(** The indent unit of a [space] parameter: that many spaces for a count,
    the string itself, both capped at 10; empty when absent. *)
Definition indent_unit (space : Space) : completion text :=
  match space with
  | SpaceAbsent => Ok []
  | SpaceNum n => String_repeat [Ch.space] (Math_min n num_10)
  | SpaceStr s => Ok (take 10 s)
  end.


(** What field marking makes of a value: a plain number becomes its
    wrapper, anything else stays. *)
Definition marked (v : value) : value :=
  match v with
  | VNumber n => VDouble n None
  | _ => v
  end.

(** The number a value stands for, marked or not. *)
Definition numeric_value (v : value) : option number :=
  match v with
  | VNumber n | VDouble n _ => Some n
  | _ => None
  end.

(** ** The shape of the encoder's output

    What the proofs about [prettyPrint] need of a text the encoder
    produces, stated on the scan so that it composes under concatenation. *)

(** The state after [b], read inside a string literal from state [st];
    [None] when the literal ends within [b]. *)
Fixpoint body_end (st : sstate) (b : text) : option sstate :=
  match b with
  | [] => Some st
  | c :: b' =>
      match in_string_step st c with
      | Out => None
      | st' => body_end st' b'
      end
  end.

(** A character that is neither a quote, a backslash, a bracket nor white
    space. *)
Definition inert (c : char) : bool :=
  negb (bool_decide (c = Ch.dquote)) && negb (bool_decide (c = Ch.backslash))
  && negb (is_open (Some c)) && negb (is_close (Some c)) && negb (is_ws c).

Definition last_or (prev : option char) (t : text) : option char :=
  match last t with Some c => Some c | None => prev end.

(** Scanned outside a literal at any depth, [t] is consumed without an
    exception and leaves the scan outside a literal at the same depth. *)
Definition balanced (t : text) : Prop :=
  forall indent prev depth rest, 0 <= depth ->
    exists chunk,
      scan indent prev Out depth (t ++ rest)
      = emit chunk (scan indent (last_or prev t) Out depth rest).

Definition ws_closed (t : text) : Prop :=
  forall rest, outer_ws_free Out (t ++ rest) = outer_ws_free Out rest.

(** A string literal that is whole: a body that does not end the literal,
    between two quotes. *)
Definition complete_literal (s : text) : Prop :=
  exists b, s = quoted b /\ body_end In b = Some In.

Definition complete_token (tok : token) : Prop :=
  match tok with TStr s => complete_literal s | TChr _ => True end.

(** The tokens of [t] are whole and do not depend on what follows [t]. *)
Definition tokens_closed (t : text) : Prop :=
  Forall complete_token (tokenize t) /\
  forall rest, tokenize (t ++ rest) = tokenize t ++ tokenize rest.

Record inner (t : text) : Prop := {
  inner_balanced : balanced t;
  inner_ws : ws_closed t;
  inner_tokens : tokens_closed t;
  inner_head : is_close (head t) = false;
  inner_last : is_open (last t) = false
}.

(** ** Auxiliary definitions of the proofs and of the examples *)

(** [json[i - 1]]. *)
Definition prev_at (json : text) (i : nat) : option char :=
  match i with O => None | S j => json !! j end.

Abbreviation inert_text t := (Forall (fun c => inert c = true) t).

Abbreviation quote_free t := (Forall (fun c => c <> Ch.dquote) t).

(** A returned string, and a quoted literal. *)
Definition returned (s : text) : completion (option text) := Ok (Some s).
Definition qlit (s : string) : text := quoted (lit s).

(** An object with a quote in its key and a string with a backslash, a
    newline and structural characters, and its minified text. *)
Definition sample_value : value :=
  VObject [(lit "k" ++ [Ch.dquote],
            VArray [Some (VString (lit "a" ++ [Ch.backslash; Ch.newline]
                                   ++ lit ",b: {"))])].

Definition sample_text : text :=
  lit "{" ++ quoted (lit "k" ++ [Ch.backslash; Ch.dquote]) ++ lit ":["
  ++ quoted (lit "a" ++ [Ch.backslash; Ch.backslash; Ch.backslash]
             ++ lit "n,b: {")
  ++ lit "]}".

(** ** Induction on values *)

Section ValueInd.
Variable P : value -> Prop.
Hypothesis Hundefined : P VUndefined.
Hypothesis Hnull : P VNull.
Hypothesis Hbool : forall b, P (VBool b).
Hypothesis Hnumber : forall n, P (VNumber n).
Hypothesis Hbigint : forall z, P (VBigInt z).
Hypothesis Hstring : forall s, P (VString s).
Hypothesis Hsymbol : P VSymbol.
Hypothesis Hfunction : P VFunction.
Hypothesis Hdouble : forall n toJSON, P (VDouble n toJSON).
Hypothesis Hdate : forall tv, P (VDate tv).
Hypothesis Hcustom : forall ret, P ret -> P (VCustom ret).
Hypothesis Harray :
  forall items, Forall (from_option P True) items -> P (VArray items).
Hypothesis Hobject :
  forall props, Forall (fun kv => P kv.2) props -> P (VObject props).
Hypothesis Hmarked : forall props, P (VMarked props).
Hypothesis Hthrowing : forall e, P (VThrowing e).

Fixpoint value_ind (v : value) : P v :=
  match v with
  | VUndefined => Hundefined
  | VNull => Hnull
  | VBool b => Hbool b
  | VNumber n => Hnumber n
  | VBigInt z => Hbigint z
  | VString s => Hstring s
  | VSymbol => Hsymbol
  | VFunction => Hfunction
  | VDouble n toJSON => Hdouble n toJSON
  | VDate tv => Hdate tv
  | VCustom ret => Hcustom ret (value_ind ret)
  | VArray items =>
      Harray items
        ((fix go (l : list (option value)) : Forall (from_option P True) l :=
            match l with
            | [] => List.Forall_nil _
            | e :: l' =>
                @List.Forall_cons _ _ e l'
                  (match e return from_option P True e with
                   | Some item => value_ind item
                   | None => I
                   end)
                  (go l')
            end) items)
  | VObject props =>
      Hobject props
        ((fix go (l : list (text * value)) : Forall (fun kv => P kv.2) l :=
            match l with
            | [] => List.Forall_nil _
            | kv :: l' =>
                @List.Forall_cons _ _ kv l' (value_ind kv.2) (go l')
            end) props)
  | VMarked props => Hmarked props
  | VThrowing e => Hthrowing e
  end.
End ValueInd.

(** * Further definitions

    Notions used by the further properties at the end of the file. *)

(** ** The encoder's results *)

(** The value that the calls of [toJSON] end in: [serializeValue] calls
    [toJSON] on the result of [toJSON] as long as there is one. *)
Fixpoint resolve_toJSON (v : value) : value :=
  match v with
  | VCustom ret => resolve_toJSON ret
  | _ => v
  end.

(** The primitives that [serializeValue] returns [undefined] for. *)
Definition no_json_form (v : value) : bool :=
  match typeof v with
  | TUndefined | TFunction | TSymbol | TBigInt => true
  | _ => false
  end.


(** ** The call stack

    [serializeValue] calls itself on what [toJSON] returns, on every
    element of an array and on the value of every key, and a value may be
    nested deeper than the stack of the engine has room for: the call that
    finds no room ends with the exception of the engine for an exhausted
    stack, in V8 a [RangeError].  The size of the stack is no constant of
    the program.  [serializeValue_within room value] is the call with room
    for [room] nested calls of [serializeValue], this call being the first
    of them; the cases without a nested call are those of
    [serializeValue]. *)
Fixpoint serializeValue_within (room : nat) (value : value)
  : completion (option text) :=
  match room with
  | O => Throw RangeError
  | S room' =>
      match value with
      | VCustom ret => serializeValue_within room' ret
      | VArray elems =>
          items ← mapM (fun elem =>
                     match elem with
                     | None => Ok None
                     | Some item =>
                         r ← serializeValue_within room' item;
                         Ok (Some (default (lit "null") r))
                     end) elems;
          Ok (Some (lit "[" ++ join_items (lit ",") items ++ lit "]"))
      | VObject props =>
          pairs ← mapM (fun '(key, v) =>
                     serializedValue ← serializeValue_within room' v;
                     match serializedValue with
                     | None => Ok None
                     | Some sv =>
                         Ok (Some (quoted (escapeString key) ++ lit ":" ++ sv))
                     end) props;
          Ok (Some (lit "{" ++ join (lit ",") (filter_pairs pairs) ++ lit "}"))
      | _ => serializeValue value
      end
  end.

(** The number of nested calls of [serializeValue] that a value needs. *)
Fixpoint nesting (v : value) : nat :=
  match v with
  | VCustom ret => S (nesting ret)
  | VArray items =>
      S (foldr (fun e => Nat.max (match e with
                                  | Some item => nesting item
                                  | None => 0%nat
                                  end)) 0%nat items)
  | VObject props => S (foldr (fun kv => Nat.max (nesting kv.2)) 0%nat props)
  | _ => 1%nat
  end.



(** ** Digits *)

Definition is_digit (c : char) : bool := ((48 <=? c) && (c <=? 57))%N.

(** ** The indent of a count *)


(** ** Reading a string literal back

    The body of a JSON string literal (RFC 8259, section 7) is a sequence
    of unescaped characters (no quote, no backslash, no control character),
    of two-character escapes and of [\uXXXX] escapes.  [unescape] decodes
    such a body and fails on any other text. *)

Definition hex_value (c : char) : option N :=
  (if (48 <=? c) && (c <=? 57) then Some (c - 48)
   else if (97 <=? c) && (c <=? 102) then Some (c - 87)
   else if (65 <=? c) && (c <=? 70) then Some (c - 55)
   else None)%N.

(** The character that a backslash and [e] stand for, [e] being one of
    the quote, the backslash, the slash and the letters b, f, n, r, t. *)
Definition simple_escape (e : char) : option char :=
  (if e =? 34 then Some 34 else if e =? 92 then Some 92
   else if e =? 47 then Some 47 else if e =? 98 then Some 8
   else if e =? 102 then Some 12 else if e =? 110 then Some 10
   else if e =? 114 then Some 13 else if e =? 116 then Some 9
   else None)%N.

Fixpoint unescape (body : text) : option text :=
  match body with
  | [] => Some []
  | c :: rest =>
      if (c =? Ch.backslash)%N then
        match rest with
        | [] => None
        | e :: rest' =>
            if (e =? 117)%N then
              match rest' with
              | h1 :: h2 :: h3 :: h4 :: rest'' =>
                  d1 ← hex_value h1; d2 ← hex_value h2;
                  d3 ← hex_value h3; d4 ← hex_value h4;
                  s ← unescape rest'';
                  Some ((((d1 * 16 + d2) * 16 + d3) * 16 + d4)%N :: s)
              | _ => None
              end
            else x ← simple_escape e; s ← unescape rest'; Some (x :: s)
        end
      else if (c =? Ch.dquote)%N || (c <=? 31)%N then None
      else s ← unescape rest; Some (c :: s)
  end.

(** ** Field marking as a map over the properties *)

(** An object with the values of the listed keys marked: the data
    properties of those keys hold the marked form of their value, with the
    attributes they had; nothing else changes. *)
Definition mark_slot (s : slot) : slot :=
  match s with
  | Data v writable enum => Data (marked v) writable enum
  | accessor => accessor
  end.

Definition mark_fields (keys : list text) (o : object) : object :=
  {| own := (fun ks : text * slot =>
               (ks.1, if decide (ks.1 ∈ keys) then mark_slot ks.2 else ks.2))
            <$> own o;
     inherited := inherited o;
     extensible := extensible o;
     setter_calls := setter_calls o |}.



(** ** Global patch *)

(** The global [JSON] object, as far as [registerGlobalStringify] reads
    and writes it: its [stringify] property, a function of three arguments
    that returns a string or [undefined], or throws. *)
Definition stringify_fn : Type :=
  value -> Replacer -> Space -> completion (option text).

Record JSON_object : Type := { JSON_stringify : stringify_fn }.

(** [registerGlobalStringify()]: the global object after the call.  The
    function it installs closes over the [JSON.stringify] found at the time
    of the call, and falls back to it when [stringify] returns [undefined]
    or [null] ([??]); [stringify] never returns [null]. *)
Definition registerGlobalStringify (JSON : JSON_object) : JSON_object :=
  let native := JSON_stringify JSON in
  {| JSON_stringify := fun value replacer space =>
       r ← stringify value replacer space;
       match r with
       | Some s => Ok (Some s)
       | None => native value replacer space
       end |}.

(** ** Character classes of the encoder's texts *)

(** The characters of the texts of numbers and keywords: digits, letters,
    and the signs and the point of a number. *)
Definition word_char (c : char) : bool :=
  (is_digit c || ((65 <=? c) && (c <=? 90)) || ((97 <=? c) && (c <=? 122))
   || (c =? Ch.plus) || (c =? Ch.minus) || (c =? Ch.dot))%N.

(** Not a control character (0x00 to 0x1F). *)
Definition not_control (c : char) : bool := (31 <? c)%N.

(** A value whose text is no array and no object: a primitive, a [Date],
    a wrapped number, or an object whose [toJSON] returns one. *)
Definition is_scalar (v : value) : bool :=
  match resolve_toJSON v with
  | VArray _ | VObject _ => false
  | _ => true
  end.

(** ** JSON texts

    The grammar of RFC 8259 without white space between the tokens: the
    encoder's texts are minified.  The body of a string is one that
    [unescape] decodes. *)






Unset Elimination Schemes.


Set Elimination Schemes.

(** The number is printed without exponent when it is integral. *)
Definition plain_notation (n : number) : bool :=
  match n with
  | Finite _ _ e => e <=? 21
  | _ => true
  end.

(** The values whose text is a JSON text: no hole in an array at a visited
    place, and no wrapped integral number of 22 digits or more. *)
Fixpoint json_safe (v : value) : bool :=
  match v with
  | VDouble n _ => negb (isFinite n && Number_isInteger n) || plain_notation n
  | VCustom ret => json_safe ret
  | VArray elems =>
      forallb (fun e => match e with
                        | Some item => json_safe item
                        | None => false
                        end) elems
  | VObject props => forallb (fun kv => json_safe kv.2) props
  | _ => true
  end.

(** ** Brackets of a text *)

(** Outside the string literals no closing bracket comes before an
    opening bracket that it can close: the number of brackets open, of
    either kind, never goes below zero. *)
Fixpoint closers_matched (st : sstate) (depth : Z) (t : text) : bool :=
  match t with
  | [] => true
  | c :: t' =>
      match st with
      | Out =>
          if decide (c = Ch.dquote) then closers_matched In depth t'
          else if is_open (Some c) then closers_matched Out (depth + 1) t'
          else if is_close (Some c) then
            (0 <? depth) && closers_matched Out (depth - 1) t'
          else closers_matched Out depth t'
      | In | Esc => closers_matched (in_string_step st c) depth t'
      end
  end.
(** * Properties *)

#[local] Arguments in_string_step : simpl never.
#[local] Arguments lit : simpl never.

(** ** The digits of a number read back as the number *)

Lemma digit_value_char d : (d < 36)%N -> digit_value (digit_char d) = d.
Proof.
  intros Hd. unfold digit_value, digit_char.
  destruct (N.ltb_spec d 10).
  - rewrite (proj2 (N.ltb_lt _ _)) by lia. lia.
  - rewrite (proj2 (N.ltb_ge _ _)) by lia. lia.
Qed.

Lemma to_radix_aux_value fuel radix : forall n acc,
  (2 <= radix <= 36)%N -> (n < 2 ^ N.of_nat fuel)%N ->
  digits_value radix (to_radix_aux fuel radix n acc) 0
  = digits_value radix acc n.
Proof.
  induction fuel as [|fuel IH]; intros n acc Hr Hn.
  - simpl in *. by replace n with 0%N by lia.
  - cbn [to_radix_aux].
    assert (Hd : digit_value (digit_char (n mod radix)) = (n mod radix)%N).
    { apply digit_value_char. pose proof (N.mod_upper_bound n radix). lia. }
    assert (Hdiv : (n = radix * (n / radix) + n mod radix)%N)
      by (apply N.div_mod; lia).
    destruct (N.eqb_spec (n / radix) 0) as [Hz|Hnz].
    + unfold digits_value. simpl. rewrite Hd. f_equal. lia.
    + rewrite IH; [ | done | ].
      * unfold digits_value. simpl. rewrite Hd. f_equal. lia.
      * rewrite Nat2N.inj_succ, N.pow_succ_r' in Hn.
        apply N.Div0.div_lt_upper_bound. nia.
Qed.

Lemma to_radix_value radix n :
  (2 <= radix <= 36)%N -> digits_value radix (to_radix radix n) 0 = n.
Proof.
  intros Hr. unfold to_radix. rewrite to_radix_aux_value; [done | done |].
  rewrite Nat2N.inj_succ, N2Nat.id, N.pow_succ_r'.
  pose proof (N.size_gt n). lia.
Qed.

(** ** The built-ins on examples *)

Example Number_toString_ex :
  Number_toString num_5 = lit "5" /\
  Number_toString num_5_5 = lit "5.5" /\
  Number_toString (Finite false 314 1) = lit "3.14" /\
  Number_toString (Finite true 42 2) = lit "-42" /\
  Number_toString (Finite false 1 3) = lit "100" /\
  Number_toString (Finite false 1 (-5)) = lit "0.000001" /\
  Number_toString (Finite false 1 (-6)) = lit "1e-7" /\
  Number_toString (Finite false 123 (-6)) = lit "1.23e-7" /\
  Number_toString num_1e21 = lit "1e+21" /\
  Number_toString (num 1000000000000000000000) = lit "1e+21" /\
  Number_toString (num 120000000000000000000) = lit "120000000000000000000" /\
  Number_toString (num (-1230000000000000000000000)) = lit "-1.23e+24".
Proof. repeat split; reflexivity. Qed.

Example toISOString_ex :
  toISOString (Some 1704067200000) = Ok (lit "2024-01-01T00:00:00.000Z") /\
  toISOString (Some 0) = Ok (lit "1970-01-01T00:00:00.000Z") /\
  toISOString (Some (-1)) = Ok (lit "1969-12-31T23:59:59.999Z") /\
  toISOString (Some 951825600123) = Ok (lit "2000-02-29T12:00:00.123Z") /\
  toISOString (Some 1709251199999) = Ok (lit "2024-02-29T23:59:59.999Z") /\
  toISOString (Some 4107542400000) = Ok (lit "2100-03-01T00:00:00.000Z") /\
  toISOString (Some (-62198755200000)) = Ok (lit "-000001-01-01T00:00:00.000Z") /\
  toISOString (Some 8640000000000000) = Ok (lit "+275760-09-13T00:00:00.000Z") /\
  toISOString None = Throw RangeError.
Proof. repeat split; vm_compute; reflexivity. Qed.

Example escapeString_ex :
  escapeString (lit "hello" ++ [Ch.newline] ++ lit "world")
    = lit "hello" ++ [Ch.backslash] ++ lit "nworld" /\
  escapeString (lit "quote" ++ [Ch.dquote] ++ lit "test")
    = lit "quote" ++ [Ch.backslash; Ch.dquote] ++ lit "test" /\
  escapeString [1%N; 31%N; 127%N; 233%N]
    = Ch.backslash :: lit "u0001" ++ Ch.backslash :: lit "u001f"
      ++ [127%N; 233%N].
Proof. repeat split; reflexivity. Qed.

(** ** The scenarios of the test suite *)

Module Tests.

Example basic_object :
  stringify (VObject [(lit "name", VString (lit "John"));
                      (lit "age", VNumber (Finite false 3 2))]) None SpaceAbsent
  = returned (lit "{" ++ qlit "name" ++ lit ":" ++ qlit "John" ++ lit ","
              ++ qlit "age" ++ lit ":30}").
Proof. reflexivity. Qed.

Example arrays :
  stringify (VArray [Some (VNumber (num 1)); Some (VNumber (num 2));
                     Some (VNumber (num 3))]) None SpaceAbsent
  = returned (lit "[1,2,3]").
Proof. reflexivity. Qed.

Example scalars :
  stringify VNull None SpaceAbsent = returned (lit "null") /\
  stringify (VBool true) None SpaceAbsent = returned (lit "true") /\
  stringify (VBool false) None SpaceAbsent = returned (lit "false") /\
  stringify VUndefined None SpaceAbsent = Ok None /\
  stringify (VNumber (num 42)) None SpaceAbsent = returned (lit "42") /\
  stringify (VNumber (Finite false 314 1)) None SpaceAbsent
    = returned (lit "3.14") /\
  stringify (VNumber (Infinity false)) None SpaceAbsent
    = returned (lit "null") /\
  stringify (VNumber (Infinity true)) None SpaceAbsent
    = returned (lit "null") /\
  stringify (VNumber NaN) None SpaceAbsent = returned (lit "null") /\
  stringify (VDate (Some 1704067200000)) None SpaceAbsent
    = returned (qlit "2024-01-01T00:00:00.000Z") /\
  stringify (VObject [(lit "fn", VFunction)]) None SpaceAbsent
    = returned (lit "{}") /\
  stringify (VObject [(lit "sym", VSymbol)]) None SpaceAbsent
    = returned (lit "{}") /\
  stringify (VObject []) None SpaceAbsent = returned (lit "{}") /\
  stringify (VArray []) None SpaceAbsent = returned (lit "[]").
Proof. repeat split; reflexivity. Qed.

Example doubles :
  stringify (VObject [(lit "value", VDouble num_5 None)]) None SpaceAbsent
    = returned (lit "{" ++ qlit "value" ++ lit ":5.0}") /\
  stringify (VObject [(lit "value", VDouble num_5_5 None)]) None SpaceAbsent
    = returned (lit "{" ++ qlit "value" ++ lit ":5.5}") /\
  Double (VString (lit "not a number")) = Throw TypeError.
Proof. repeat split; reflexivity. Qed.

Example pretty_two_spaces :
  stringify (VObject [(lit "a", VNumber (num 1)); (lit "b", VNumber (num 2))])
    None (SpaceNum (num 2))
  = returned (lit "{" ++ [Ch.newline] ++ lit "  " ++ qlit "a" ++ lit ": 1,"
              ++ [Ch.newline] ++ lit "  " ++ qlit "b" ++ lit ": 2"
              ++ [Ch.newline] ++ lit "}").
Proof. reflexivity. Qed.

Example pretty_nested :
  stringify (VObject [(lit "a", VNumber (num 1));
                      (lit "b", VObject [(lit "c", VNumber (num 2))]);
                      (lit "d", VArray [])])
    None (SpaceStr [Ch.tab])
  = returned (lit "{" ++ [Ch.newline; Ch.tab] ++ qlit "a" ++ lit ": 1,"
              ++ [Ch.newline; Ch.tab] ++ qlit "b" ++ lit ": {"
              ++ [Ch.newline; Ch.tab; Ch.tab] ++ qlit "c" ++ lit ": 2"
              ++ [Ch.newline; Ch.tab] ++ lit "},"
              ++ [Ch.newline; Ch.tab] ++ qlit "d" ++ lit ": []"
              ++ [Ch.newline] ++ lit "}").
Proof. reflexivity. Qed.

Example mark_fields :
  let data := record [(lit "price", VNumber (num 100));
                      (lit "quantity", VNumber (num 5));
                      (lit "name", VString (lit "Widget"))] in
  exists data',
    markAsDouble {[ 1%positive := data ]} 1%positive
                 [lit "price"; lit "quantity"]
      = Ok ({[ 1%positive := data' ]}, 1%positive) /\
    stringify (VObject (entries data')) None SpaceAbsent
      = returned (lit "{" ++ qlit "price" ++ lit ":100.0,"
                  ++ qlit "quantity" ++ lit ":5.0,"
                  ++ qlit "name" ++ lit ":" ++ qlit "Widget" ++ lit "}").
Proof. eexists. split; [ vm_compute; reflexivity | reflexivity ]. Qed.

Example mark_skips_non_numbers :
  let data := record [(lit "value", VString (lit "text"));
                      (lit "count", VNumber (num 10))] in
  exists data',
    markAsDouble {[ 1%positive := data ]} 1%positive [lit "value"; lit "count"]
      = Ok ({[ 1%positive := data' ]}, 1%positive) /\
    stringify (VObject (entries data')) None SpaceAbsent
      = returned (lit "{" ++ qlit "value" ++ lit ":" ++ qlit "text" ++ lit ","
                  ++ qlit "count" ++ lit ":10.0}").
Proof. eexists. split; [ vm_compute; reflexivity | reflexivity ]. Qed.

End Tests.

(** ** The order of the tests of [serializeValue]

    [serializeValue] is defined by cases on the value.  Read as the chain
    of tests of the source, in their order, it is the same function.  Under
    the marker, a [valueOf] that returns no number is the marked plain
    object, which [isFinite] refuses. *)
Lemma serializeValue_tests value :
  serializeValue value
  = if is_undefined value || bool_decide (typeof value = TFunction)
       || bool_decide (typeof value = TSymbol) then Ok None
    else if is_null value then Ok (Some (lit "null"))
    else if bool_decide (typeof value = TBoolean) then
      match value with
      | VBool b => Ok (Some (String_bool b))
      | _ => Ok None
      end
    else if bool_decide (typeof value = TString) then
      match value with
      | VString s => Ok (Some (quoted (escapeString s)))
      | _ => Ok None
      end
    else
      isDoubleNumber value ≫= fun isDouble : bool =>
      if isDouble then
        match valueOf value with
        | Some num => Ok (Some (serializeDouble num))
        | None => Ok (Some (lit "null"))
        end
      else if bool_decide (typeof value = TNumber) then
        match value with
        | VNumber n => Ok (Some (serializeNumber n))
        | _ => Ok None
        end
      else if is_Date value then
        match value with
        | VDate tv => iso ← toISOString tv; Ok (Some (quoted iso))
        | _ => Ok None
        end
      else
        match toJSON_of value with
        | Some call => ret ← call; serializeValue ret
        | None =>
            if Array_isArray value then
              match value with
              | VArray elems =>
                  items ← mapM (fun elem =>
                             match elem with
                             | None => Ok None
                             | Some item =>
                                 r ← serializeValue item;
                                 Ok (Some (default (lit "null") r))
                             end) elems;
                  Ok (Some (lit "[" ++ join_items (lit ",") items ++ lit "]"))
              | _ => Ok None
              end
            else if bool_decide (typeof value = TObject) then
              match value with
              | VObject props =>
                  pairs ← mapM (fun '(key, v) =>
                             serializedValue ← serializeValue v;
                             match serializedValue with
                             | None => Ok None
                             | Some sv =>
                                 Ok (Some (quoted (escapeString key)
                                           ++ lit ":" ++ sv))
                             end) props;
                  Ok (Some (lit "{" ++ join (lit ",") (filter_pairs pairs)
                            ++ lit "}"))
              | _ => Ok None
              end
            else Ok None
        end.
Proof. destruct value; reflexivity. Qed.

(** ** Completions *)

Lemma emit_emit a b r : emit a (emit b r) = emit (a ++ b) r.
Proof. destruct r; simpl; [ by rewrite app_assoc | done ]. Qed.

Lemma emit_nil r : emit [] r = r.
Proof. by destruct r. Qed.

Lemma emit_Ok a t : emit a (Ok t) = Ok (a ++ t).
Proof. done. Qed.

Lemma emit_Ok_inv a r out :
  emit a r = Ok out -> exists t, r = Ok t /\ out = a ++ t.
Proof. destruct r; simpl; [ intros [= <-]; eauto | done ]. Qed.

Lemma bind_Ok_inv {A B} (r : completion A) (k : A -> completion B) b :
  r ≫= k = Ok b -> exists a, r = Ok a /\ k a = Ok b.
Proof. destruct r; simpl; [ eauto | done ]. Qed.

Lemma str_repeat_Ok s count :
  0 <= count -> str_repeat s count = Ok (concat (repeat s (Z.to_nat count))).
Proof. intros. unfold str_repeat. by rewrite (proj2 (Z.ltb_ge _ _)). Qed.

Lemma str_repeat_Ok_inv s count t :
  str_repeat s count = Ok t ->
  0 <= count /\ t = concat (repeat s (Z.to_nat count)).
Proof.
  unfold str_repeat. destruct (Z.ltb_spec count 0); [ done | ].
  intros [= <-]. done.
Qed.

Lemma bind_Ok {A B} (a : A) (k : A -> completion B) : Ok a ≫= k = k a.
Proof. done. Qed.

Lemma Ok_inj {A} (a b : A) : Ok a = Ok b -> a = b.
Proof. by intros [= ->]. Qed.

Lemma mapM_Ok_inv {A B} (f : A -> completion B) l ys :
  mapM f l = Ok ys -> Forall2 (fun x y => f x = Ok y) l ys.
Proof.
  revert ys. induction l as [|x l IH]; intros ys; simpl.
  - intros <-%Ok_inj. constructor.
  - intros (y & Hy & (ys' & Hys & <-%Ok_inj)%bind_Ok_inv)%bind_Ok_inv.
    constructor; [done | by apply IH].
Qed.

Lemma mapM_Ok {A B} (f : A -> completion B) l ys :
  Forall2 (fun x y => f x = Ok y) l ys -> mapM f l = Ok ys.
Proof. induction 1 as [|x y l ys Hxy _ IH]; simpl; [done|]. by rewrite Hxy, IH. Qed.

(** ** [prettyPrint] computes [scan] *)

Lemma drop_lookup_cons (json : text) i c :
  json !! i = Some c -> drop i json = c :: drop (S i) json.
Proof. intros. by apply drop_S. Qed.

Lemma drop_lookup_nil (json : text) i : json !! i = None -> drop i json = [].
Proof. intros H. apply drop_ge. by apply lookup_ge_None. Qed.

Lemma head_drop (json : text) i : head (drop i json) = json !! i.
Proof.
  destruct (json !! i) eqn:E.
  - by rewrite (drop_lookup_cons _ _ _ E).
  - by rewrite (drop_lookup_nil _ _ E).
Qed.

Ltac emit_norm :=
  rewrite ?concat_app; simpl;
  rewrite ?emit_emit, ?emit_nil; simpl;
  rewrite <- ?app_assoc; simpl; rewrite ?app_nil_r;
  try done.

Lemma prettyPrint_loop_scan fuel json indent i depth inString result :
  (length json - i <= fuel)%nat ->
  (r ← prettyPrint_loop fuel json indent i depth inString result;
   Ok (concat r))
  = emit (concat result)
         (scan indent (prev_at json i) (if inString then In else Out) depth
               (drop i json)).
Proof.
  revert i depth inString result.
  induction fuel as [|fuel IH]; intros i depth inString result Hfuel.
  - rewrite drop_ge by lia. simpl. by rewrite app_nil_r.
  - simpl. destruct (json !! i) as [c|] eqn:Hc.
    2:{ rewrite (drop_lookup_nil _ _ Hc). simpl. by rewrite app_nil_r. }
    assert (Hlen : (i < length json)%nat) by (by eapply lookup_lt_Some).
    rewrite (drop_lookup_cons _ _ _ Hc).
    replace (i + 1)%nat with (S i) by lia.
    replace (i + 2)%nat with (S (S i)) by lia.
    assert (Hprev : prev_at json (S i) = Some c) by done.
    assert (Hnext : head (drop (S i) json) = json !! S i) by apply head_drop.
    destruct inString.
    + (* inside a string literal *)
      simpl. unfold in_string_step.
      destruct (decide (c = Ch.backslash)) as [->|Hbs].
      * rewrite IH by lia.
        destruct (json !! S i) as [c'|] eqn:Hc'.
        -- rewrite (drop_lookup_cons _ _ _ Hc'). simpl prev_at. rewrite Hc'. emit_norm.
        -- rewrite (drop_lookup_nil _ _ Hc').
           rewrite (drop_ge json (S (S i))) by (apply lookup_ge_None in Hc'; lia).
           emit_norm.
      * destruct (decide (c = Ch.dquote)) as [->|Hdq];
          rewrite IH by lia; rewrite Hprev; emit_norm.
    + (* outside *)
      simpl. rewrite Hnext.
      destruct (decide (c = Ch.dquote)) as [->|Hdq].
      { rewrite IH by lia. rewrite Hprev. emit_norm. }
      destruct (is_open (Some c)).
      { destruct (negb (is_close (json !! S i))).
        - destruct (str_repeat indent (depth + 1)) as [ind|e]; simpl; [|done].
          rewrite IH by lia. rewrite Hprev. emit_norm.
        - rewrite IH by lia. rewrite Hprev. emit_norm. }
      destruct (is_close (Some c)).
      { destruct (negb (is_open (prev_at json i))) eqn:Hp;
          destruct i; simpl in Hp |- *; rewrite ?Hp.
        all: try (destruct (str_repeat indent (depth - 1)) as [ind|e];
                  simpl; [|done]).
        all: rewrite IH by lia; rewrite Hprev; emit_norm. }
      destruct (decide (c = Ch.comma)) as [->|Hcomma].
      { destruct (str_repeat indent depth) as [ind|e]; simpl; [|done].
        rewrite IH by lia. rewrite Hprev. emit_norm. }
      destruct (decide (c = Ch.colon)) as [->|Hcolon];
        rewrite IH by lia; rewrite Hprev; emit_norm.
Qed.

(** [prettyPrint] returns what the scan from the start of the text
    returns: the fuel of the loop is never exhausted. *)
Lemma scan_prettyPrint json indent :
  prettyPrint json indent = scan indent None Out 0 json.
Proof.
  unfold prettyPrint.
  rewrite (prettyPrint_loop_scan (length json) json indent 0 0 false []) by lia.
  simpl. apply emit_nil.
Qed.

(** ** The reflow pass, token by token *)

Lemma filler_nil indent : filler indent [].
Proof. by left. Qed.

Lemma filler_space indent : filler indent [Ch.space].
Proof. right. by left. Qed.

Lemma filler_newline indent d :
  filler indent (Ch.newline :: concat (repeat indent d)).
Proof. right. right. by exists d. Qed.

#[local] Hint Resolve filler_nil filler_space filler_newline : core.

Lemma chunk_of_chr indent c pre post :
  filler indent pre -> filler indent post ->
  chunk_of indent (TChr c) (pre ++ c :: post).
Proof. intros. by exists pre, post. Qed.

(** Whenever the scan returns, its output is the concatenation of one chunk
    per token of its input: every string literal as it is, every other
    character between two fillers. *)
Lemma scan_chunks indent t : forall prev st depth cur out,
  (st = Out -> cur = []) ->
  scan indent prev st depth t = Ok out ->
  exists chunks,
    cur ++ out = concat chunks /\
    Forall2 (chunk_of indent) (tokenize_from st cur t) chunks.
Proof.
  induction t as [|c t IH]; intros prev st depth cur out Hcur Hscan.
  - injection Hscan as <-. destruct cur as [|x cur]; simpl.
    + exists []. split; [done | constructor].
    + exists [x :: cur]. split; [done | by repeat constructor].
  - assert (Hin : st <> Out ->
      scan indent (Some c) (in_string_step st c) depth t ≫= (fun t0 => Ok (c :: t0)) = Ok out ->
      exists chunks, cur ++ out = concat chunks /\
        Forall2 (chunk_of indent)
          (match in_string_step st c with
           | Out => TStr (cur ++ [c]) :: tokenize_from Out [] t
           | st' => tokenize_from st' (cur ++ [c]) t
           end) chunks).
    { intros Hst H. apply bind_Ok_inv in H as (out' & Hout' & [= <-]).
      destruct (in_string_step st c) eqn:Hstep.
      - destruct (IH _ _ _ [] _ (fun _ => eq_refl) Hout') as (chunks & Hc & HF).
        exists ((cur ++ [c]) :: chunks). simpl in *. split.
        + rewrite <- Hc. by rewrite <- app_assoc.
        + by constructor.
      - destruct (IH (Some c) In depth (cur ++ [c]) out' ltac:(done) Hout')
          as (chunks & Hc & HF).
        exists chunks. split; [ by rewrite <- Hc, <- app_assoc | done ].
      - destruct (IH (Some c) Esc depth (cur ++ [c]) out' ltac:(done) Hout')
          as (chunks & Hc & HF).
        exists chunks. split; [ by rewrite <- Hc, <- app_assoc | done ]. }
    destruct st; simpl in Hscan |- *; [ | by apply Hin | by apply Hin ].
    rewrite (Hcur eq_refl). clear Hin Hcur. simpl.
    assert (Hout : forall pre post d prev',
      filler indent pre -> filler indent post ->
      emit (pre ++ c :: post) (scan indent prev' Out d t) = Ok out ->
      exists chunks, out = concat chunks /\
        Forall2 (chunk_of indent) (TChr c :: tokenize_from Out [] t) chunks).
    { intros pre post d prev' Hpre Hpost H.
      apply emit_Ok_inv in H as (out' & Hout' & ->).
      destruct (IH _ _ _ [] _ (fun _ => eq_refl) Hout') as (chunks & Hc & HF).
      exists ((pre ++ c :: post) :: chunks). simpl in *. split.
      - by rewrite Hc.
      - constructor; [ by apply chunk_of_chr | done ]. }
    destruct (decide (c = Ch.dquote)) as [->|Hdq].
    { apply emit_Ok_inv in Hscan as (out' & Hout' & ->).
      destruct (IH (Some Ch.dquote) In depth [Ch.dquote] out' ltac:(done) Hout')
        as (chunks & Hc & HF).
      by exists chunks. }
    destruct (is_open (Some c)).
    { destruct (negb (is_close (head t))).
      - apply bind_Ok_inv in Hscan as (ind & Hind & Hscan).
        apply str_repeat_Ok_inv in Hind as [_ ->].
        eapply (Hout [] (Ch.newline :: _)); eauto.
      - eapply (Hout [] []); eauto. }
    destruct (is_close (Some c)).
    { destruct (negb (is_open prev)).
      - apply bind_Ok_inv in Hscan as (ind & Hind & Hscan).
        apply str_repeat_Ok_inv in Hind as [_ ->].
        eapply (Hout (Ch.newline :: _) []); eauto.
      - eapply (Hout [] []); eauto. }
    destruct (decide (c = Ch.comma)) as [->|Hcomma].
    { apply bind_Ok_inv in Hscan as (ind & Hind & Hscan).
      apply str_repeat_Ok_inv in Hind as [_ ->].
      eapply (Hout [] (Ch.newline :: _)); eauto. }
    destruct (decide (c = Ch.colon)) as [->|Hcolon].
    { eapply (Hout [] [Ch.space]); eauto. }
    eapply (Hout [] []); eauto.
Qed.

(** ** Removing the white space the reflow pass adds *)

Lemma strip_from_ws ws t :
  Forall (fun c => is_ws c = true) ws ->
  strip_from Out (ws ++ t) = strip_from Out t.
Proof.
  induction 1 as [|c ws Hc _ IH]; [done|]. simpl.
  destruct (decide (c = Ch.dquote)) as [->|_]; [done|]. by rewrite Hc.
Qed.

Lemma concat_repeat_ws (indent : text) d :
  Forall (fun c => is_ws c = true) indent ->
  Forall (fun c => is_ws c = true) (concat (repeat indent d)).
Proof.
  intros H. induction d as [|d IH]; simpl; [constructor|].
  by apply Forall_app.
Qed.

Lemma is_open_char c :
  is_open (Some c) = true -> c <> Ch.dquote /\ is_ws c = false.
Proof.
  unfold is_open. rewrite orb_true_iff, !bool_decide_eq_true.
  by intros [[= ->]|[= ->]].
Qed.

Lemma is_close_char c :
  is_close (Some c) = true -> c <> Ch.dquote /\ is_ws c = false.
Proof.
  unfold is_close. rewrite orb_true_iff, !bool_decide_eq_true.
  by intros [[= ->]|[= ->]].
Qed.

(** With an indent unit of white space, on a text without white space
    outside its literals: stripping what the scan returns gives the text
    back. *)
Lemma scan_strip indent t : forall prev st depth out,
  Forall (fun c => is_ws c = true) indent ->
  outer_ws_free st t = true ->
  scan indent prev st depth t = Ok out ->
  strip_from st out = t.
Proof.
  induction t as [|c t IH]; intros prev st depth out Hind Hfree Hscan.
  - by injection Hscan as <-.
  - assert (Hin : st <> Out ->
      emit [c] (scan indent (Some c) (in_string_step st c) depth t) = Ok out ->
      outer_ws_free (in_string_step st c) t = true ->
      strip_from st out = c :: t).
    { intros Hst H Hfree'. apply emit_Ok_inv in H as (out' & Hout' & ->).
      destruct st; [done| |]; simpl; f_equal; eauto. }
    destruct st; simpl in Hscan, Hfree; [ | by apply Hin | by apply Hin ].
    clear Hin.
    assert (Hout : forall pre post d prev',
      c <> Ch.dquote -> is_ws c = false ->
      Forall (fun c => is_ws c = true) pre ->
      Forall (fun c => is_ws c = true) post ->
      emit (pre ++ c :: post) (scan indent prev' Out d t) = Ok out ->
      outer_ws_free Out t = true ->
      strip_from Out out = c :: t).
    { intros pre post d prev' Hdq Hws Hpre Hpost H Hfree'.
      apply emit_Ok_inv in H as (out' & Hout' & ->).
      rewrite <- app_assoc, strip_from_ws by done. simpl.
      destruct (decide (c = Ch.dquote)); [done|]. rewrite Hws.
      rewrite strip_from_ws by done. f_equal. eauto. }
    destruct (decide (c = Ch.dquote)) as [->|Hdq].
    { apply emit_Ok_inv in Hscan as (out' & Hout' & ->). simpl.
      f_equal. eauto. }
    apply andb_true_iff in Hfree as [Hws Hfree].
    apply negb_true_iff in Hws.
    assert (Hnl : forall d, Forall (fun c => is_ws c = true)
                         (Ch.newline :: concat (repeat indent d))).
    { intros d. constructor; [done | by apply concat_repeat_ws]. }
    destruct (is_open (Some c)).
    { destruct (negb (is_close (head t))).
      - apply bind_Ok_inv in Hscan as (ind & Hi & Hscan).
        apply str_repeat_Ok_inv in Hi as [_ ->].
        eapply (Hout [] (Ch.newline :: _)); eauto.
      - eapply (Hout [] []); eauto. }
    destruct (is_close (Some c)).
    { destruct (negb (is_open prev)).
      - apply bind_Ok_inv in Hscan as (ind & Hi & Hscan).
        apply str_repeat_Ok_inv in Hi as [_ ->].
        eapply (Hout (Ch.newline :: _) []); eauto.
      - eapply (Hout [] []); eauto. }
    destruct (decide (c = Ch.comma)) as [->|Hcomma].
    { apply bind_Ok_inv in Hscan as (ind & Hi & Hscan).
      apply str_repeat_Ok_inv in Hi as [_ ->].
      eapply (Hout [] (Ch.newline :: _)); eauto. }
    destruct (decide (c = Ch.colon)) as [->|Hcolon].
    { eapply (Hout [] [Ch.space]); eauto. }
    eapply (Hout [] []); eauto.
Qed.

(** ** The string literals of the reflowed text *)

Lemma literals_plain x y :
  quote_free x ->
  omap token_literal (tokenize_from Out [] (x ++ y))
  = omap token_literal (tokenize_from Out [] y).
Proof.
  induction 1 as [|c x Hc _ IH]; [done|]. simpl.
  by destruct (decide (c = Ch.dquote)).
Qed.

Lemma concat_repeat_quote_free (indent : text) d :
  quote_free indent -> quote_free (concat (repeat indent d)).
Proof.
  intros H. induction d as [|d IH]; simpl; [constructor|].
  by apply Forall_app.
Qed.

(** With an indent unit without quote, the reflowed text has the string
    literals of the input, in the same order. *)
Lemma scan_literals indent t : forall prev st depth cur out,
  quote_free indent ->
  (st = Out -> cur = []) ->
  scan indent prev st depth t = Ok out ->
  omap token_literal (tokenize_from st cur out)
  = omap token_literal (tokenize_from st cur t).
Proof.
  induction t as [|c t IH]; intros prev st depth cur out Hind Hcur Hscan.
  - by injection Hscan as <-.
  - assert (Hin : st <> Out ->
      emit [c] (scan indent (Some c) (in_string_step st c) depth t) = Ok out ->
      omap token_literal (tokenize_from st cur out)
      = omap token_literal
          (match in_string_step st c with
           | Out => TStr (cur ++ [c]) :: tokenize_from Out [] t
           | st' => tokenize_from st' (cur ++ [c]) t
           end)).
    { intros Hst H. apply emit_Ok_inv in H as (out' & Hout' & ->).
      destruct st; [done| |]; simpl;
        destruct (in_string_step _ c) eqn:E;
        try (by unfold in_string_step in E);
        simpl; rewrite ?E;
        first [ by eapply IH | f_equal; by eapply IH ]. }
    destruct st; simpl in Hscan |- *; [ | by apply Hin | by apply Hin ].
    rewrite (Hcur eq_refl). clear Hin Hcur.
    assert (Hout : forall pre post d prev',
      c <> Ch.dquote -> quote_free pre -> quote_free post ->
      emit (pre ++ c :: post) (scan indent prev' Out d t) = Ok out ->
      omap token_literal (tokenize_from Out [] out)
      = omap token_literal (TChr c :: tokenize_from Out [] t)).
    { intros pre post d prev' Hdq Hpre Hpost H.
      apply emit_Ok_inv in H as (out' & Hout' & ->).
      rewrite <- app_assoc, literals_plain by done. simpl.
      destruct (decide (c = Ch.dquote)); [done|]. simpl.
      rewrite literals_plain by done. by eapply IH. }
    destruct (decide (c = Ch.dquote)) as [->|Hdq].
    { apply emit_Ok_inv in Hscan as (out' & Hout' & ->). simpl.
      by eapply IH. }
    assert (Hnl : forall d, quote_free (Ch.newline :: concat (repeat indent d))).
    { intros d. constructor; [done | by apply concat_repeat_quote_free]. }
    destruct (is_open (Some c)).
    { destruct (negb (is_close (head t))).
      - apply bind_Ok_inv in Hscan as (ind & Hi & Hscan).
        apply str_repeat_Ok_inv in Hi as [_ ->].
        by eapply (Hout [] (Ch.newline :: _) (depth + 1) (Some c)).
      - by apply (Hout [] [] depth (Some c)). }
    destruct (is_close (Some c)).
    { destruct (negb (is_open prev)).
      - apply bind_Ok_inv in Hscan as (ind & Hi & Hscan).
        apply str_repeat_Ok_inv in Hi as [_ ->].
        by eapply (Hout (Ch.newline :: _) [] (depth - 1) (Some c)).
      - by apply (Hout [] [] depth (Some c)). }
    destruct (decide (c = Ch.comma)) as [->|Hcomma].
    { apply bind_Ok_inv in Hscan as (ind & Hi & Hscan).
      apply str_repeat_Ok_inv in Hi as [_ ->].
      by eapply (Hout [] (Ch.newline :: _) depth (Some Ch.comma)). }
    destruct (decide (c = Ch.colon)) as [->|Hcolon].
    { apply (Hout [] [Ch.space] depth (Some Ch.colon)); try done.
      by repeat constructor. }
    by apply (Hout [] [] depth (Some c)).
Qed.

(** ** Texts that scan as a unit *)

Lemma last_or_app prev a b : last_or prev (a ++ b) = last_or (last_or prev a) b.
Proof. unfold last_or. rewrite last_app. by destruct (last b). Qed.

Lemma last_or_snoc prev a c : last_or prev (a ++ [c]) = Some c.
Proof. unfold last_or. by rewrite last_snoc. Qed.

Lemma balanced_nil : balanced [].
Proof. intros indent prev depth rest _. exists []. simpl. by rewrite emit_nil. Qed.

Lemma balanced_app a b : balanced a -> balanced b -> balanced (a ++ b).
Proof.
  intros Ha Hb indent prev depth rest Hd.
  destruct (Ha indent prev depth (b ++ rest) Hd) as [ca Hca].
  destruct (Hb indent (last_or prev a) depth rest Hd) as [cb Hcb].
  exists (ca ++ cb).
  by rewrite <- app_assoc, Hca, Hcb, emit_emit, last_or_app.
Qed.

Lemma ws_closed_nil : ws_closed [].
Proof. by intros rest. Qed.

Lemma ws_closed_app a b : ws_closed a -> ws_closed b -> ws_closed (a ++ b).
Proof. intros Ha Hb rest. by rewrite <- app_assoc, Ha, Hb. Qed.

Lemma tokens_closed_nil : tokens_closed [].
Proof. split; [ constructor | done ]. Qed.

Lemma tokens_closed_app a b :
  tokens_closed a -> tokens_closed b -> tokens_closed (a ++ b).
Proof.
  intros [Fa Ha] [Fb Hb]. split.
  - rewrite Ha. by apply Forall_app.
  - intros rest. by rewrite <- app_assoc, !Ha, Hb, app_assoc.
Qed.

Lemma tokens_closed_char c : c <> Ch.dquote -> tokens_closed [c].
Proof.
  intros Hc.
  assert (H : forall rest, tokenize (c :: rest) = TChr c :: tokenize rest).
  { intros rest. unfold tokenize. simpl.
    by destruct (decide (c = Ch.dquote)). }
  split.
  - rewrite H. by repeat constructor.
  - intros rest. change ([c] ++ rest) with (c :: rest). by rewrite !H.
Qed.

Lemma inner_nil : inner [].
Proof.
  split; [ apply balanced_nil | apply ws_closed_nil | apply tokens_closed_nil
         | done | done ].
Qed.

Lemma inner_app a b : inner a -> inner b -> inner (a ++ b).
Proof.
  intros [Ba Wa Ta Ha La] [Bb Wb Tb Hb Lb]. split.
  - by apply balanced_app.
  - by apply ws_closed_app.
  - by apply tokens_closed_app.
  - rewrite head_app. by destruct (head a).
  - rewrite last_app. by destruct (last b).
Qed.

Lemma inert_spec c :
  inert c = true ->
  c <> Ch.dquote /\ c <> Ch.backslash /\ is_open (Some c) = false
  /\ is_close (Some c) = false /\ is_ws c = false.
Proof.
  unfold inert. rewrite !andb_true_iff, !negb_true_iff, !bool_decide_eq_false.
  tauto.
Qed.

Lemma inner_inert_char c : inert c = true -> inner [c].
Proof.
  intros (Hdq & _ & Hopen & Hclose & Hws)%inert_spec. split; simpl.
  - intros indent prev depth rest Hd. simpl.
    destruct (decide (c = Ch.dquote)); [done|]. rewrite Hopen, Hclose.
    destruct (decide (c = Ch.comma)) as [->|].
    { rewrite str_repeat_Ok by done. simpl. eauto. }
    destruct (decide (c = Ch.colon)) as [->|]; eauto.
  - intros rest. simpl. destruct (decide (c = Ch.dquote)); [done|].
    by rewrite Hws.
  - by apply tokens_closed_char.
  - done.
  - done.
Qed.

Lemma inner_inert t : Forall (fun c => inert c = true) t -> inner t.
Proof.
  induction 1 as [|c t Hc _ IH]; [ apply inner_nil | ].
  apply (inner_app [c] t); [ by apply inner_inert_char | done ].
Qed.

(** *** String literals *)

Lemma body_end_app st a b :
  body_end st (a ++ b) = body_end st a ≫= fun st' => body_end st' b.
Proof.
  revert st. induction a as [|c a IH]; intros st; [done|]. simpl.
  destruct (in_string_step st c); [done | apply IH | apply IH].
Qed.

Lemma body_end_not_Out st b st' : st <> Out -> body_end st b = Some st' -> st' <> Out.
Proof.
  revert st. induction b as [|c b IH]; intros st Hst; simpl.
  - by intros [= <-].
  - destruct (in_string_step st c) eqn:E; [done | |]; by apply IH.
Qed.

Lemma scan_body indent depth rest b : forall prev st st',
  st <> Out -> body_end st b = Some st' ->
  scan indent prev st depth (b ++ rest)
  = emit b (scan indent (last_or prev b) st' depth rest).
Proof.
  induction b as [|c b IH]; intros prev st st' Hst Hend.
  - injection Hend as <-. simpl. by rewrite emit_nil.
  - simpl in Hend.
    assert (last_or prev (c :: b) = last_or (Some c) b) as ->.
    { unfold last_or. rewrite last_cons. by destruct (last b). }
    destruct (in_string_step st c) eqn:E; [done | |];
      destruct st; try done; simpl; rewrite E;
      (erewrite IH by (done || eassumption)); by rewrite emit_emit.
Qed.

Lemma ws_free_body rest b : forall st st',
  st <> Out -> body_end st b = Some st' ->
  outer_ws_free st (b ++ rest) = outer_ws_free st' rest.
Proof.
  induction b as [|c b IH]; intros st st' Hst Hend.
  - by injection Hend as <-.
  - simpl in Hend.
    destruct (in_string_step st c) eqn:E; [done | |];
      destruct st; try done; simpl; rewrite E; by apply IH.
Qed.

Lemma tokenize_body rest b : forall st st' cur,
  st <> Out -> body_end st b = Some st' ->
  tokenize_from st cur (b ++ rest) = tokenize_from st' (cur ++ b) rest.
Proof.
  induction b as [|c b IH]; intros st st' cur Hst Hend.
  - injection Hend as <-. by rewrite app_nil_r.
  - simpl in Hend.
    destruct (in_string_step st c) eqn:E; [done | |];
      destruct st; try done; simpl; rewrite ?E;
      (erewrite IH by (done || eassumption)); by rewrite <- app_assoc.
Qed.

Lemma tokenize_quoted b rest :
  body_end In b = Some In ->
  tokenize (quoted b ++ rest) = TStr (quoted b) :: tokenize rest.
Proof.
  intros Hb. unfold tokenize, quoted. simpl. rewrite <- app_assoc.
  by rewrite (tokenize_body _ _ In In).
Qed.

(** A body that never leaves the literal, between quotes, is one unit. *)
Lemma inner_quoted b : body_end In b = Some In -> inner (quoted b).
Proof.
  intros Hb.
  assert (Htok : tokens_closed (quoted b)).
  { pose proof (tokenize_quoted b [] Hb) as H0. rewrite app_nil_r in H0.
    split.
    - rewrite H0. repeat constructor. by exists b.
    - intros rest. by rewrite H0, tokenize_quoted. }
  unfold quoted in *. split; [ | | done | | ].
  - intros indent prev depth rest Hd. exists (Ch.dquote :: b ++ [Ch.dquote]).
    assert (last_or prev (Ch.dquote :: b ++ [Ch.dquote]) = Some Ch.dquote)
      as -> by apply (last_or_snoc prev (Ch.dquote :: b)).
    change ((Ch.dquote :: b ++ [Ch.dquote]) ++ rest)
      with (Ch.dquote :: (b ++ [Ch.dquote]) ++ rest).
    rewrite <- app_assoc.
    simpl. rewrite (scan_body _ _ _ _ _ In In) by done.
    simpl. rewrite !emit_emit. reflexivity.
  - intros rest. simpl. rewrite <- app_assoc.
    by rewrite (ws_free_body _ _ In In).
  - done.
  - change (Ch.dquote :: b ++ [Ch.dquote]) with ((Ch.dquote :: b) ++ [Ch.dquote]).
    by rewrite last_snoc.
Qed.

(** *** Arrays and objects *)

Lemma open_not_close o : is_open (Some o) = true -> is_close (Some o) = false.
Proof.
  unfold is_open, is_close. rewrite orb_true_iff, !bool_decide_eq_true.
  by intros [[= ->]|[= ->]].
Qed.

Lemma close_not_open c : is_close (Some c) = true -> is_open (Some c) = false.
Proof.
  unfold is_open, is_close. rewrite orb_true_iff, !bool_decide_eq_true.
  by intros [[= ->]|[= ->]].
Qed.

Lemma scan_open indent prev depth o rest :
  is_open (Some o) = true ->
  scan indent prev Out depth (o :: rest)
  = if negb (is_close (head rest)) then
      ind ← str_repeat indent (depth + 1);
      emit (o :: Ch.newline :: ind) (scan indent (Some o) Out (depth + 1) rest)
    else emit [o] (scan indent (Some o) Out depth rest).
Proof.
  intros Ho. destruct (is_open_char _ Ho) as [Hdq _]. simpl.
  destruct (decide (o = Ch.dquote)); [done|]. by rewrite Ho.
Qed.

Lemma scan_close indent prev depth c rest :
  is_close (Some c) = true ->
  scan indent prev Out depth (c :: rest)
  = if negb (is_open prev) then
      ind ← str_repeat indent (depth - 1);
      emit (Ch.newline :: ind ++ [c]) (scan indent (Some c) Out (depth - 1) rest)
    else emit [c] (scan indent (Some c) Out depth rest).
Proof.
  intros Hc. destruct (is_close_char _ Hc) as [Hdq _]. simpl.
  destruct (decide (c = Ch.dquote)); [done|].
  by rewrite (close_not_open _ Hc), Hc.
Qed.

Lemma inner_bracket o c body :
  is_open (Some o) = true -> is_close (Some c) = true ->
  inner body -> inner (o :: body ++ [c]).
Proof.
  intros Ho Hc [Bb Wb Tb Hb Lb].
  destruct (is_open_char _ Ho) as [Ho1 Ho2].
  destruct (is_close_char _ Hc) as [Hc1 Hc2].
  split.
  - intros indent prev depth rest Hd.
    assert (last_or prev (o :: body ++ [c]) = Some c)
      as -> by apply (last_or_snoc prev (o :: body)).
    change ((o :: body ++ [c]) ++ rest) with (o :: (body ++ [c]) ++ rest).
    rewrite <- app_assoc, scan_open by done.
    destruct (decide (body = [])) as [->|Hne].
    + change ([] ++ [c] ++ rest) with (c :: rest).
      change (head (c :: rest)) with (Some c). rewrite Hc.
      simpl negb. cbv iota. rewrite scan_close by done.
      rewrite Ho. simpl. rewrite emit_emit. eauto.
    + assert (is_close (head (body ++ [c] ++ rest)) = false) as ->.
      { rewrite head_app. destruct body; [done|]. apply Hb. }
      simpl negb. cbv iota. rewrite str_repeat_Ok by lia.
      destruct (Bb indent (Some o) (depth + 1) ([c] ++ rest) ltac:(lia))
        as [chunk Hchunk].
      rewrite bind_Ok, Hchunk.
      assert (is_open (last_or (Some o) body) = false) as Hlast.
      { unfold last_or. destruct (last body) eqn:E; [done|].
        by apply last_None in E. }
      change ([c] ++ rest) with (c :: rest).
      rewrite scan_close by done. rewrite Hlast. simpl negb.
      cbv iota. rewrite str_repeat_Ok by lia.
      replace (depth + 1 - 1) with depth by lia.
      rewrite bind_Ok, !emit_emit. eauto.
  - intros rest. simpl. destruct (decide (o = Ch.dquote)); [done|].
    rewrite Ho2. simpl. rewrite <- app_assoc, Wb. simpl.
    destruct (decide (c = Ch.dquote)); [done|]. by rewrite Hc2.
  - apply (tokens_closed_app [o] (body ++ [c])); [ | apply tokens_closed_app ];
      [ | done | ]; by apply tokens_closed_char.
  - simpl. by apply open_not_close.
  - change (o :: body ++ [c]) with ((o :: body) ++ [c]).
    rewrite last_snoc. by apply close_not_open.
Qed.

Lemma inner_join sep parts :
  inner sep -> Forall inner parts -> inner (join sep parts).
Proof.
  intros Hsep. induction 1 as [|p parts Hp _ IH]; [ apply inner_nil | ].
  destruct parts as [|p' parts]; [done|].
  change (join sep (p :: p' :: parts)) with (p ++ sep ++ join sep (p' :: parts)).
  by repeat apply inner_app.
Qed.

(** ** The characters of the built-ins' output *)

Lemma inert_range (c : char) :
  (43 <= c <= 57 \/ 58 < c <= 90 \/ 97 <= c <= 122)%N -> c <> Ch.comma ->
  inert c = true.
Proof.
  intros Hc Hcomma. unfold inert, is_open, is_close, is_ws, Ch.comma in *.
  repeat case_bool_decide; simplify_eq; try done; unfold Ch.dquote,
    Ch.backslash, Ch.lbrace, Ch.lbracket, Ch.rbrace, Ch.rbracket, Ch.space,
    Ch.newline, Ch.tab, Ch.cr in *; lia.
Qed.

Lemma inert_lit s :
  forallb inert (lit s) = true -> inert_text (lit s).
Proof. intros H. apply Forall_forall. intros c Hc%list_elem_of_In.
  rewrite forallb_forall in H. by apply H. Qed.

Lemma digit_char_inert d : (d < 36)%N -> inert (digit_char d) = true.
Proof.
  intros Hd. unfold digit_char. destruct (N.ltb_spec d 10);
    apply inert_range; unfold Ch.comma; lia.
Qed.

Lemma to_radix_aux_inert fuel radix n acc :
  (0 < radix <= 36)%N -> inert_text acc ->
  inert_text (to_radix_aux fuel radix n acc).
Proof.
  intros Hr. revert n acc. induction fuel as [|fuel IH]; intros n acc Hacc; [done|].
  simpl.
  assert (inert_text (digit_char (n mod radix) :: acc)).
  { constructor; [|done]. apply digit_char_inert.
    pose proof (N.mod_upper_bound n radix). lia. }
  destruct (n / radix =? 0)%N; [done | by apply IH].
Qed.

Lemma to_radix_inert radix n : (0 < radix <= 36)%N -> inert_text (to_radix radix n).
Proof. intros. by apply to_radix_aux_inert. Qed.

Lemma decimal_inert n : inert_text (decimal n).
Proof. by apply to_radix_inert. Qed.

Lemma repeat_inert c n : inert c = true -> inert_text (repeat c n).
Proof. intros. induction n; by constructor. Qed.

Lemma padStart_inert w c t : inert c = true -> inert_text t -> inert_text (padStart w c t).
Proof. intros. apply Forall_app. split; [ by apply repeat_inert | done ]. Qed.

Lemma sign_text_inert neg : inert_text (sign_text neg).
Proof. destruct neg; by repeat constructor. Qed.

Lemma Number_toString_inert x : inert_text (Number_toString x).
Proof.
  assert (Hz : inert Ch.zero = true) by done.
  assert (Hd : inert_text [Ch.dot]) by (by repeat constructor).
  destruct x as [|neg|neg|neg s n]; cbn [Number_toString].
  - by apply inert_lit.
  - apply Forall_app. split; [ apply sign_text_inert | by apply inert_lit ].
  - by apply inert_lit.
  - pose proof (decimal_inert (significand s)) as Hds.
    apply Forall_app. split; [ apply sign_text_inert | ].
    assert (He : inert_text (lit "e" ++ (if n <? 0 then [Ch.minus] else [Ch.plus])
                             ++ decimal (Z.to_N (Z.abs (n - 1))))).
    { apply Forall_app. split; [ by apply inert_lit | ].
      apply Forall_app. split; [ destruct (n <? 0); by repeat constructor | ].
      apply decimal_inert. }
    repeat case_match; rewrite ?Forall_app; repeat split;
      auto using repeat_inert, Forall_take, Forall_drop, inert_lit,
        decimal_inert.
Qed.

Lemma serializeDouble_inert num : inert_text (serializeDouble num).
Proof.
  unfold serializeDouble. repeat case_match; rewrite ?Forall_app;
    repeat split; auto using Number_toString_inert, inert_lit.
Qed.

Lemma serializeNumber_inert n : inert_text (serializeNumber n).
Proof.
  unfold serializeNumber. case_match; auto using Number_toString_inert, inert_lit.
Qed.

Lemma pad_num_inert w x : inert_text (pad_num w x).
Proof. apply padStart_inert; [ done | apply decimal_inert ]. Qed.

Lemma year_text_inert y : inert_text (year_text y).
Proof.
  unfold year_text. repeat case_match; rewrite ?Forall_app; repeat split;
    auto using pad_num_inert; by repeat constructor.
Qed.

Lemma toISOString_inert tv iso : toISOString tv = Ok iso -> inert_text iso.
Proof.
  destruct tv as [t|]; [|done]. unfold toISOString.
  destruct (civil_from_days (t / msPerDay)) as [[y m] d].
  intros <-%Ok_inj.
  rewrite !Forall_app; repeat split;
    auto using pad_num_inert, year_text_inert; by apply inert_lit.
Qed.

(** *** Inside a string literal *)

Lemma body_end_inert b : inert_text b -> body_end In b = Some In.
Proof.
  induction 1 as [|c b Hc _ IH]; [done|]. simpl.
  apply inert_spec in Hc as (Hdq & Hbs & _).
  unfold in_string_step. by rewrite !decide_False.
Qed.

Lemma body_end_escape_char c : body_end In (escape_char c) = Some In.
Proof.
  unfold escape_char.
  destruct (escape_lookup ESCAPE_MAP c) as [e|] eqn:E.
  - simpl in E. repeat case_match; simplify_eq; done.
  - change (body_end In (padStart 4 Ch.zero (to_radix 16 c)) = Some In).
    apply body_end_inert, padStart_inert; [ done | by apply to_radix_inert ].
Qed.

Lemma body_end_escapeString str : body_end In (escapeString str) = Some In.
Proof.
  induction str as [|c str IH]; [done|].
  unfold escapeString in *. simpl. rewrite body_end_app.
  assert (body_end In (if needs_escape c then escape_char c else [c]) = Some In)
    as ->; [|done].
  destruct (needs_escape c) eqn:E; [ apply body_end_escape_char | ].
  unfold needs_escape in E. rewrite !orb_false_iff in E.
  destruct E as [[Hdq%N.eqb_neq Hbs%N.eqb_neq] _].
  simpl. unfold in_string_step. by rewrite !decide_False.
Qed.

(** ** Every text of the encoder scans as a unit *)

Lemma inner_null : inner (lit "null").
Proof. by apply inner_inert, inert_lit. Qed.

Lemma inner_comma : inner (lit ",").
Proof. by apply inner_inert, inert_lit. Qed.

Lemma inner_colon : inner (lit ":").
Proof. by apply inner_inert, inert_lit. Qed.

Lemma inner_key key : inner (quoted (escapeString key)).
Proof. apply inner_quoted, body_end_escapeString. Qed.

Theorem serializeValue_inner v : forall t,
  serializeValue v = Ok (Some t) -> inner t.
Proof.
  induction v as [| |b|n|z|s| | |n tj|tv|ret IH|items IH|props IH|props|e]
    using value_ind; intros t; cbn [serializeValue]; try done;
    try (intros [= <-]; apply inner_null).
  - intros [= <-]. destruct b; by apply inner_inert, inert_lit.
  - intros [= <-]. apply inner_inert, serializeNumber_inert.
  - intros [= <-]. apply inner_key.
  - intros [= <-]. apply inner_inert, serializeDouble_inert.
  - intros (iso & Hiso & <-%Ok_inj%Some_inj)%bind_Ok_inv.
    by eapply inner_quoted, body_end_inert, toISOString_inert.
  - apply IH.
  - intros (its & Hits%mapM_Ok_inv & <-%Ok_inj%Some_inj)%bind_Ok_inv.
    apply (inner_bracket Ch.lbracket Ch.rbracket); [done | done |].
    apply inner_join; [ apply inner_comma | ].
    clear -IH Hits. induction Hits as [|e y items its He _ IHits]; simpl.
    + constructor.
    + apply Forall_cons in IH as [IHe IH]. constructor; [ | by apply IHits ].
      destruct e as [item|].
      * apply bind_Ok_inv in He as (r & Hr & <-%Ok_inj).
        destruct r as [t'|]; simpl; [ by apply IHe | apply inner_null ].
      * apply Ok_inj in He as <-. apply inner_nil.
  - intros (pairs & Hpairs%mapM_Ok_inv & <-%Ok_inj%Some_inj)%bind_Ok_inv.
    apply (inner_bracket Ch.lbrace Ch.rbrace); [done | done |].
    apply inner_join; [ apply inner_comma | ].
    clear -IH Hpairs. unfold filter_pairs.
    induction Hpairs as [|[key v] y props pairs Hkv _ IHpairs]; simpl.
    + constructor.
    + apply Forall_cons in IH as [IHv IH].
      apply bind_Ok_inv in Hkv as (r & Hr & Hy).
      destruct r as [sv|]; apply Ok_inj in Hy as <-; simpl; [ | by apply IHpairs ].
      constructor; [ | by apply IHpairs ].
      apply (inner_app (quoted (escapeString key)) (lit ":" ++ sv));
        [ apply inner_key | ].
      apply (inner_app (lit ":") sv); [ apply inner_colon | by apply IHv ].
Qed.

(** The reflow pass returns on every text of the encoder. *)
Lemma inner_prettyPrint t indent :
  inner t -> exists out, prettyPrint t indent = Ok out.
Proof.
  intros [B _ _ _ _]. destruct (B indent None 0 [] ltac:(lia)) as [chunk H].
  rewrite app_nil_r in H. rewrite scan_prettyPrint, H. simpl. eauto.
Qed.

Lemma inner_ws_free t : inner t -> outer_ws_free Out t = true.
Proof. intros [_ W _ _ _]. specialize (W []). by rewrite app_nil_r in W. Qed.

(** ** The reflow pass on the encoder's output *)

(** The tokens of a text are a partition of it. *)
Lemma tokenize_from_concat t : forall st cur,
  (st = Out -> cur = []) ->
  concat (token_text <$> tokenize_from st cur t) = cur ++ t.
Proof.
  induction t as [|c t IH]; intros st cur Hcur; simpl.
  - destruct cur; simpl; by rewrite ?app_nil_r.
  - assert (Hin : concat (token_text <$>
                    match in_string_step st c with
                    | Out => TStr (cur ++ [c]) :: tokenize_from Out [] t
                    | st' => tokenize_from st' (cur ++ [c]) t
                    end) = cur ++ c :: t).
    { destruct (in_string_step st c); simpl; rewrite IH by done; simpl;
        by rewrite <- app_assoc. }
    destruct st; [ | done | done ]. rewrite (Hcur eq_refl).
    destruct (decide (c = Ch.dquote)) as [->|_]; simpl; by rewrite IH.
Qed.

Lemma tokenize_concat t : concat (token_text <$> tokenize t) = t.
Proof. by apply (tokenize_from_concat t Out []). Qed.

(** ** [stringify] *)

Lemma concat_repeat_singleton (c : char) n : concat (repeat [c] n) = repeat c n.
Proof. induction n as [|n IH]; simpl; [done | by rewrite IH]. Qed.

Lemma falsy_indent_unit space ind :
  falsy space = true -> indent_unit space = Ok ind -> ind = [].
Proof.
  destruct space as [|[|neg|neg|neg s n]|s]; simpl; try done.
  - by intros _ [= <-].
  - by intros _ [= <-].
  - by intros _ [= <-].
  - intros ->%bool_decide_eq_true. by intros [= <-].
Qed.

(** [stringify] in terms of the indent unit of its [space]. *)
Lemma stringify_indent_unit v r space t ind :
  serializeValue v = Ok (Some t) ->
  indent_unit space = Ok ind ->
  stringify v r space
  = if bool_decide (ind = []) then Ok (Some t)
    else pretty ← prettyPrint t ind; Ok (Some pretty).
Proof.
  intros Hv Hind. unfold stringify. rewrite Hv. simpl.
  destruct (falsy space) eqn:Hf.
  - by rewrite (falsy_indent_unit _ _ Hf Hind).
  - destruct space as [|n|s]; [done| |]; simpl in Hind; by rewrite Hind.
Qed.

Lemma indent_unit_count z :
  0 <= z ->
  indent_unit (SpaceNum (num z)) = Ok (repeat Ch.space (Z.to_nat (Z.min z 10))).
Proof.
  intros Hz. destruct z as [|p|p]; [done| |lia].
  unfold indent_unit, num, Math_min, Number_lt, scaled, num_10.
  change (num_k 1) with 1. rewrite Z.sub_diag.
  change (Z.min (2 - 1) 0) with 0.
  change (1 * 10 ^ (2 - 1 - 0)) with 10. change (10 ^ (0 - 0)) with 1.
  rewrite Z.mul_1_r. destruct (Z.ltb_spec 10 (Z.pos p)) as [Hlt|Hge].
  - rewrite Z.min_r by lia. done.
  - rewrite Z.min_l by lia. unfold String_repeat, truncate.
    rewrite Z.leb_refl, Z.sub_diag, Z.mul_1_r.
    rewrite str_repeat_Ok by lia. by rewrite concat_repeat_singleton.
Qed.


Example stringify_space_12 :
  stringify VNull None (SpaceNum (Finite true 5 0)) = Ok (Some (lit "null")) /\
  indent_unit (SpaceNum (num 12)) = Ok (lit "          ") /\
  stringify (VArray [Some (VNumber (num 1))]) None (SpaceNum (num 12))
  = Ok (Some (lit "[" ++ [Ch.newline] ++ lit "          1" ++ [Ch.newline]
              ++ lit "]")).
Proof. repeat split; reflexivity. Qed.

(** ** The decimal marker *)

Lemma typeof_number v : typeof v = TNumber -> exists n, v = VNumber n.
Proof. destruct v; try done. eauto. Qed.


Lemma property_replace_eq props k s s0 :
  property props k = Some s0 -> property (replace props k s) k = Some s.
Proof.
  induction props as [|[k' s'] props IH]; simpl; [done|].
  destruct (decide (k' = k)) as [->|Hne]; simpl.
  - by rewrite decide_True.
  - by rewrite decide_False.
Qed.

Lemma property_replace_ne props k k' s :
  k <> k' -> property (replace props k s) k' = property props k'.
Proof.
  intros Hne. induction props as [|[k0 s0] props IH]; simpl; [done|].
  destruct (decide (k0 = k)) as [->|Hk0]; simpl.
  - by rewrite !decide_False.
  - destruct (decide (k0 = k')); [done | apply IH].
Qed.

Lemma replace_keys props k s : (replace props k s).*1 = props.*1.
Proof.
  induction props as [|[k' s'] props IH]; simpl; [done|].
  destruct (decide (k' = k)) as [->|Hne]; simpl; [done|]. f_equal. apply IH.
Qed.

(** A listed key that holds a number and is markable is an own writable
    data property. *)
Lemma markable_number (o : object) k :
  markable o k = true -> typeof (get o k) = TNumber ->
  exists v e, property (own o) k = Some (Data v true e).
Proof.
  unfold markable, get.
  destruct (property (own o) k) as [[v w e|g st e]|]; simpl.
  - intros Hm Hty. destruct w; [ eauto | ].
    simpl in Hm. by rewrite bool_decide_eq_true_2 in Hm.
  - done.
  - destruct (property (inherited o) k) as [[v w e|g st e]|]; simpl;
      [ | done | done ].
    intros Hm Hty. by rewrite bool_decide_eq_true_2 in Hm.
Qed.

(** The assignment to such a key: it returns, the key reads as the value
    assigned, every other key reads as before, the own keys and their order,
    the prototype chain and extensibility are as before, and the keys that
    were markable are markable when the value is no number. *)
Lemma set_markable (o : object) k v :
  markable o k = true -> typeof (get o k) = TNumber ->
  exists o' : object,
    set o k v = Ok o' /\
    (own o').*1 = (own o).*1 /\ inherited o' = inherited o /\
    extensible o' = extensible o /\
    get o' k = v /\
    (forall k', k' <> k -> get o' k' = get o k') /\
    (typeof v <> TNumber ->
     forall k', markable o k' = true -> markable o' k' = true).
Proof.
  intros Hm Hty.
  destruct (markable_number o k Hm Hty) as (v0 & e & Hown).
  unfold set. rewrite Hown. eexists. split; [done|]. simpl.
  split; [ apply replace_keys | ]. split; [done|]. split; [done|].
  split; [ | split ].
  - unfold get. simpl. by rewrite (property_replace_eq _ _ _ _ Hown).
  - intros k' Hne. unfold get. simpl. by rewrite property_replace_ne.
  - intros Hv k'. unfold markable. simpl.
    destruct (decide (k' = k)) as [->|Hne].
    + by rewrite (property_replace_eq _ _ _ _ Hown).
    + by rewrite property_replace_ne.
Qed.

Lemma marked_not_number v : typeof (marked v) <> TNumber.
Proof. by destruct v. Qed.

Lemma marked_id v : typeof v <> TNumber -> marked v = v.
Proof. by destruct v. Qed.

Lemma marked_marked v : marked (marked v) = marked v.
Proof. by destruct v. Qed.

Lemma numeric_value_marked v : numeric_value (marked v) = numeric_value v.
Proof. by destruct v. Qed.

(** On markable keys the loop does not throw, keeps the own keys and
    their order, the prototype chain and extensibility, and leaves at every
    key the marked form of its value if the key is listed and its value
    otherwise. *)
Lemma markAsDouble_loop_spec keys : forall o : object,
  Forall (fun key => markable o key = true) keys ->
  exists o' : object,
    markAsDouble_loop o keys = Ok o' /\
    (own o').*1 = (own o).*1 /\ inherited o' = inherited o /\
    extensible o' = extensible o /\
    forall key, get o' key
                = if decide (key ∈ keys) then marked (get o key) else get o key.
Proof.
  induction keys as [|k keys IH]; intros o Hm.
  - exists o. do 4 (split; [done|]). intros key.
    rewrite decide_False; [done | apply not_elem_of_nil].
  - apply Forall_cons in Hm as [Hk Hm]. simpl. case_bool_decide as Hnum.
    + destruct (typeof_number _ Hnum) as [n Hn]. rewrite Hn. simpl.
      destruct (set_markable o k (VDouble n None) Hk Hnum)
        as (o1 & -> & Hkeys1 & Hinh1 & Hext1 & Hget1 & Hother1 & Hmark1).
      simpl.
      destruct (IH o1) as (o' & Hloop & Hkeys & Hinh & Hext & Hget).
      { eapply Forall_impl; [ exact Hm | ]. intros k'. by apply Hmark1. }
      exists o'. split; [done|]. split; [congruence|]. split; [congruence|].
      split; [congruence|].
      intros key. rewrite Hget.
      destruct (decide (key = k)) as [->|Hne].
      * rewrite Hget1, Hn, (decide_True (P := k ∈ k :: keys))
          by apply list_elem_of_here.
        by destruct (decide (k ∈ keys)).
      * rewrite Hother1 by done.
        destruct (decide (key ∈ keys)) as [Hin|Hnin].
        -- rewrite decide_True; [done | by apply list_elem_of_further].
        -- rewrite decide_False; [done|].
           by intros [?|?]%elem_of_cons.
    + destruct (IH o Hm) as (o' & Hloop & Hkeys & Hinh & Hext & Hget).
      exists o'. split; [done|]. split; [done|]. split; [done|].
      split; [done|].
      intros key. rewrite Hget.
      destruct (decide (key = k)) as [->|Hne].
      * rewrite (decide_True (P := k ∈ k :: keys)) by apply list_elem_of_here.
        destruct (decide (k ∈ keys)); [done | by rewrite marked_id].
      * destruct (decide (key ∈ keys)) as [Hin|Hnin].
        -- rewrite decide_True; [done | by apply list_elem_of_further].
        -- rewrite decide_False; [done|].
           by intros [?|?]%elem_of_cons.
Qed.

(** On an object whose listed keys hold no plain number the loop changes
    nothing. *)
Lemma markAsDouble_loop_fixed keys (o : object) :
  (forall key, key ∈ keys -> typeof (get o key) <> TNumber) ->
  markAsDouble_loop o keys = Ok o.
Proof.
  induction keys as [|k keys IH]; intros H; [done|]. simpl.
  rewrite bool_decide_eq_false_2 by (apply H, list_elem_of_here).
  apply IH. intros key Hkey. by apply H, list_elem_of_further.
Qed.

Lemma property_app_ne (props : list (text * slot)) key s k :
  k <> key -> property (props ++ [(key, s)]) k = property props k.
Proof.
  intros Hne. induction props as [|[k0 s0] props IH]; simpl.
  - by rewrite decide_False.
  - by rewrite IH.
Qed.

Lemma property_app_eq (props : list (text * slot)) key s :
  property props key = None -> property (props ++ [(key, s)]) key = Some s.
Proof.
  induction props as [|[k0 s0] props IH]; simpl.
  - by rewrite decide_True.
  - destruct (decide (k0 = key)); [done | apply IH].
Qed.

Lemma property_insert_index_ne i key s props k :
  k <> key -> property (insert_index i key s props) k = property props k.
Proof.
  intros Hne. induction props as [|[k0 s0] props IH]; simpl.
  - by rewrite decide_False.
  - destruct (array_index k0) as [j|]; [ destruct (j <? i)%N | ]; simpl;
      rewrite ?(decide_False (P := key = k)) by done; try done.
    by rewrite IH.
Qed.

Lemma property_insert_index_eq i key s props :
  property props key = None ->
  property (insert_index i key s props) key = Some s.
Proof.
  induction props as [|[k0 s0] props IH]; simpl.
  - by rewrite decide_True.
  - destruct (decide (k0 = key)) as [->|Hne]; [done|]. intros Hp.
    destruct (array_index k0) as [j|]; [ destruct (j <? i)%N | ]; simpl;
      rewrite ?decide_True by done; try done.
    rewrite decide_False by done. by apply IH.
Qed.

Lemma insert_index_keys i key s props k :
  k ∈ (insert_index i key s props).*1 <-> k = key \/ k ∈ props.*1.
Proof.
  induction props as [|[k0 s0] props IH]; simpl.
  - by rewrite elem_of_cons.
  - destruct (array_index k0) as [j|]; [ destruct (j <? i)%N | ]; simpl;
      rewrite ?elem_of_cons; try done.
    rewrite IH. tauto.
Qed.

(** A new key: it reads as the property made, the other keys read as
    before, and it is the one key added. *)
Lemma property_create_ne props key s k :
  k <> key -> property (create props key s) k = property props k.
Proof.
  intros Hne. unfold create. destruct (array_index key).
  - by apply property_insert_index_ne.
  - by apply property_app_ne.
Qed.

Lemma property_create_eq props key s :
  property props key = None -> property (create props key s) key = Some s.
Proof.
  intros Hp. unfold create. destruct (array_index key).
  - by apply property_insert_index_eq.
  - by apply property_app_eq.
Qed.

Lemma create_keys props key s k :
  k ∈ (create props key s).*1 <-> k ∈ props.*1 \/ k = key.
Proof.
  unfold create. destruct (array_index key).
  - rewrite insert_index_keys. tauto.
  - rewrite fmap_app, elem_of_app. simpl. by rewrite list_elem_of_singleton.
Qed.

Lemma property_Some_key (props : list (text * slot)) k s :
  property props k = Some s -> k ∈ props.*1.
Proof.
  induction props as [|[k0 s0] props IH]; simpl; [done|].
  destruct (decide (k0 = k)) as [->|Hne].
  - intros _. apply list_elem_of_here.
  - intros Hp. by apply list_elem_of_further, IH.
Qed.

(** An assignable key that holds a number is a writable data property,
    of the object itself or inherited by an extensible object. *)
Lemma assignable_number (o : object) k :
  assignable o k = true -> typeof (get o k) = TNumber ->
  (exists v e, property (own o) k = Some (Data v true e)) \/
  (property (own o) k = None /\ extensible o = true /\
   exists v e, property (inherited o) k = Some (Data v true e)).
Proof.
  unfold assignable, get.
  destruct (property (own o) k) as [[v w e|g st e]|]; simpl.
  - intros Hm Hty. destruct w; [ eauto | ].
    simpl in Hm. by rewrite bool_decide_eq_true_2 in Hm.
  - done.
  - destruct (property (inherited o) k) as [[v w e|g st e]|]; simpl;
      [ | done | done ].
    intros Hm Hty. rewrite (bool_decide_eq_true_2 _ Hty) in Hm.
    rewrite orb_false_r in Hm. apply andb_true_iff in Hm as [-> ->].
    right. split; [done|]. split; [done|]. eauto.
Qed.

Lemma markable_assignable (o : object) k :
  markable o k = true -> assignable o k = true.
Proof.
  unfold markable, assignable.
  destruct (property (own o) k) as [[v w e|g st e]|]; [done|done|].
  destruct (property (inherited o) k) as [[v w e|g st e]|]; [|done|done].
  intros ->. apply orb_true_r.
Qed.

(** The assignment to such a key: it returns and calls no setter, the key
    reads as the value assigned and is an own key, every other key reads as
    before and no other key is added; the prototype chain and extensibility
    are as before, and the keys that were assignable are assignable when
    the value is no number. *)
Lemma set_assignable (o : object) k v :
  assignable o k = true -> typeof (get o k) = TNumber ->
  exists o' : object,
    set o k v = Ok o' /\
    inherited o' = inherited o /\ extensible o' = extensible o /\
    setter_calls o' = setter_calls o /\
    get o' k = v /\
    (forall k', k' <> k -> get o' k' = get o k') /\
    (forall k', k' ∈ (own o').*1 <-> k' ∈ (own o).*1 \/ k' = k) /\
    (typeof v <> TNumber ->
     forall k', assignable o k' = true -> assignable o' k' = true).
Proof.
  intros Hm Hty.
  destruct (assignable_number o k Hm Hty)
    as [(v0 & e & Hown)|(Hown & Hext & v0 & e & Hinh)];
    unfold set; rewrite Hown, ?Hinh, ?Hext;
    eexists; (split; [done|]); simpl; do 3 (split; [done|]).
  - split; [ | split; [ | split ] ].
    + unfold get. simpl. by rewrite (property_replace_eq _ _ _ _ Hown).
    + intros k' Hne. unfold get. simpl. by rewrite property_replace_ne.
    + intros k'. rewrite replace_keys. split; [ by left | ].
      intros [?| ->]; [ done | by eapply property_Some_key ].
    + intros Hv k'. unfold assignable. simpl.
      destruct (decide (k' = k)) as [->|Hne].
      * by rewrite (property_replace_eq _ _ _ _ Hown).
      * by rewrite property_replace_ne.
  - split; [ | split; [ | split ] ].
    + unfold get. simpl. by rewrite property_create_eq.
    + intros k' Hne. unfold get. simpl. by rewrite property_create_ne.
    + intros k'. apply create_keys.
    + intros Hv k'. unfold assignable. simpl.
      destruct (decide (k' = k)) as [->|Hne].
      * by rewrite property_create_eq.
      * by rewrite property_create_ne.
Qed.

(** On assignable keys the loop does not throw and calls no setter; it
    keeps the prototype chain and extensibility, the own keys of the object
    after it are those it had and the listed keys that held a number, and
    every key reads as the marked form of its value if it is listed and as
    its value otherwise. *)
Lemma markAsDouble_loop_assignable keys : forall o : object,
  Forall (fun key => assignable o key = true) keys ->
  exists o' : object,
    markAsDouble_loop o keys = Ok o' /\
    inherited o' = inherited o /\ extensible o' = extensible o /\
    setter_calls o' = setter_calls o /\
    (forall key, key ∈ (own o').*1 <->
                 key ∈ (own o).*1
                 \/ (key ∈ keys /\ typeof (get o key) = TNumber)) /\
    forall key, get o' key
                = if decide (key ∈ keys) then marked (get o key) else get o key.
Proof.
  induction keys as [|k keys IH]; intros o Hm.
  - exists o. do 4 (split; [done|]). split.
    + intros key. rewrite elem_of_nil. tauto.
    + intros key. rewrite decide_False; [done | apply not_elem_of_nil].
  - apply Forall_cons in Hm as [Hk Hm]. simpl. case_bool_decide as Hnum.
    + destruct (typeof_number _ Hnum) as [n Hn]. rewrite Hn. simpl.
      destruct (set_assignable o k (VDouble n None) Hk Hnum)
        as (o1 & -> & Hinh1 & Hext1 & Hcalls1 & Hget1 & Hother1 & Hkeys1
            & Hmark1).
      simpl.
      destruct (IH o1) as (o' & Hloop & Hinh & Hext & Hcalls & Hkeys & Hget).
      { eapply Forall_impl; [ exact Hm | ]. intros k'. by apply Hmark1. }
      exists o'. split; [done|]. split; [congruence|]. split; [congruence|].
      split; [congruence|]. split.
      * intros key. rewrite Hkeys, Hkeys1, elem_of_cons.
        destruct (decide (key = k)) as [->|Hne].
        -- rewrite Hget1. simpl. rewrite Hn. simpl. split; [ | tauto ].
           intros _. right. by split; [left|].
        -- rewrite Hother1 by done. tauto.
      * intros key. rewrite Hget.
        destruct (decide (key = k)) as [->|Hne].
        -- rewrite Hget1, Hn, (decide_True (P := k ∈ k :: keys))
             by apply list_elem_of_here.
           by destruct (decide (k ∈ keys)).
        -- rewrite Hother1 by done.
           destruct (decide (key ∈ keys)) as [Hin|Hnin].
           ++ rewrite decide_True; [done | by apply list_elem_of_further].
           ++ rewrite decide_False; [done|].
              by intros [?|?]%elem_of_cons.
    + destruct (IH o Hm) as (o' & Hloop & Hinh & Hext & Hcalls & Hkeys & Hget).
      exists o'. do 4 (split; [done|]). split.
      * intros key. rewrite Hkeys, elem_of_cons.
        split; [ tauto | ].
        intros [?|[[->|?] ?]]; [ tauto | done | tauto ].
      * intros key. rewrite Hget.
        destruct (decide (key = k)) as [->|Hne].
        -- rewrite (decide_True (P := k ∈ k :: keys))
             by apply list_elem_of_here.
           destruct (decide (k ∈ keys)); [done | by rewrite marked_id].
        -- destruct (decide (key ∈ keys)) as [Hin|Hnin].
           ++ rewrite decide_True; [done | by apply list_elem_of_further].
           ++ rewrite decide_False; [done|].
              by intros [?|?]%elem_of_cons.
Qed.

(** ** Arrays and objects *)

(** An object with a callable [toJSON] that [Double] did not make is
    serialized through it, so the order of the two tests matters. *)
Lemma serializeValue_custom ret :
  serializeValue (VCustom ret) = serializeValue ret.
Proof. done. Qed.

(** An array without holes yields one element per position, [null] where
    the element has no JSON form. *)
Lemma serializeValue_dense_array items parts :
  Forall2 (fun item part =>
             exists r, serializeValue item = Ok r /\ part = default (lit "null") r)
          items parts ->
  serializeValue (VArray (Some <$> items))
  = Ok (Some (lit "[" ++ join (lit ",") parts ++ lit "]")).
Proof.
  intros H. cbn [serializeValue].
  rewrite (mapM_Ok _ _ (Some <$> parts)).
  - simpl. unfold join_items. rewrite <- list_fmap_compose.
    by rewrite list_fmap_id.
  - induction H as [|item part items parts (r & Hr & ->) _ IH]; simpl;
      constructor; [ by rewrite Hr | done ].
Qed.


(** ** The reflow with the empty indent unit *)

Lemma concat_repeat_nil {A} n : concat (repeat (@nil A) n) = [].
Proof. induction n; simpl; done. Qed.

(** With the empty indent unit the pass, when it returns, returns the
    reflow that [reflow_empty] describes. *)
Lemma scan_reflow_empty t : forall prev st depth out,
  scan [] prev st depth t = Ok out -> out = reflow_empty prev st t.
Proof.
  induction t as [|c t IH]; intros prev st depth out Hscan.
  - by injection Hscan as <-.
  - assert (Hin : st <> Out ->
      emit [c] (scan [] (Some c) (in_string_step st c) depth t) = Ok out ->
      out = c :: reflow_empty (Some c) (in_string_step st c) t).
    { intros _ H. apply emit_Ok_inv in H as (out' & Hout' & ->).
      simpl. f_equal. eauto. }
    destruct st; [ | by apply Hin | by apply Hin ]. clear Hin.
    cbn [scan reflow_empty] in *.
    destruct (decide (c = Ch.dquote)) as [->|Hdq].
    { apply emit_Ok_inv in Hscan as (out' & Hout' & ->). simpl.
      f_equal. eauto. }
    destruct (is_open (Some c)) eqn:Hopen.
    { assert (Hcomma : c <> Ch.comma) by (by intros ->).
      assert (Hcolon : c <> Ch.colon) by (by intros ->).
      rewrite !decide_False by done.
      rewrite (open_not_close _ Hopen). simpl.
      destruct (is_close (head t)); simpl in *.
      - apply emit_Ok_inv in Hscan as (out' & Hout' & ->). simpl.
        f_equal. eauto.
      - apply bind_Ok_inv in Hscan as (ind & Hi & Hscan).
        apply str_repeat_Ok_inv in Hi as [_ ->].
        rewrite concat_repeat_nil in Hscan.
        apply emit_Ok_inv in Hscan as (out' & Hout' & ->). simpl.
        do 2 f_equal. eauto. }
    destruct (is_close (Some c)) eqn:Hclose.
    { assert (Hcomma : c <> Ch.comma) by (by intros ->).
      assert (Hcolon : c <> Ch.colon) by (by intros ->).
      rewrite !decide_False by done.
      destruct (is_open prev); simpl in *.
      - apply emit_Ok_inv in Hscan as (out' & Hout' & ->). simpl.
        f_equal. eauto.
      - apply bind_Ok_inv in Hscan as (ind & Hi & Hscan).
        apply str_repeat_Ok_inv in Hi as [_ ->].
        rewrite concat_repeat_nil in Hscan.
        apply emit_Ok_inv in Hscan as (out' & Hout' & ->). simpl.
        do 2 f_equal. eauto. }
    simpl.
    destruct (decide (c = Ch.comma)) as [->|_].
    { apply bind_Ok_inv in Hscan as (ind & Hi & Hscan).
      apply str_repeat_Ok_inv in Hi as [_ ->].
      rewrite concat_repeat_nil in Hscan.
      apply emit_Ok_inv in Hscan as (out' & Hout' & ->). simpl.
      do 2 f_equal. eauto. }
    destruct (decide (c = Ch.colon)) as [->|_].
    { apply emit_Ok_inv in Hscan as (out' & Hout' & ->). simpl.
      do 2 f_equal. eauto. }
    apply emit_Ok_inv in Hscan as (out' & Hout' & ->). simpl.
    f_equal. eauto.
Qed.

(** * The claims *)

(** C1: a [Double]-wrapped number is recognised by [isDoubleNumber] and
    serialized by its own branch, a callable [toJSON] it may have is not
    consulted: it gives [null] when the number is not finite, the text of
    the number followed by [.0] when it is integral, and the text of the
    number otherwise; [Double(5)] gives [5.0] and [Double(5.5)] gives
    [5.5]. *)
Theorem C1_double_before_toJSON (n : number) (toJSON : option value) :
  isDoubleNumber (VDouble n toJSON) = Ok true /\
  valueOf (VDouble n toJSON) = Some n /\
  serializeValue (VDouble n toJSON) = serializeValue (VDouble n None) /\
  serializeValue (VDouble n toJSON)
  = Ok (Some (if negb (isFinite n) then lit "null"
              else if Number_isInteger n then Number_toString n ++ lit ".0"
              else Number_toString n)) /\
  (Double (VNumber num_5) ≫= serializeValue) = Ok (Some (lit "5.0")) /\
  (Double (VNumber num_5_5) ≫= serializeValue) = Ok (Some (lit "5.5")).
Proof. repeat split. Qed.

Example double_with_toJSON :
  serializeValue (VDouble num_5 (Some (VString (lit "five"))))
    = Ok (Some (lit "5.0")) /\
  serializeValue (VCustom (VString (lit "five")))
    = Ok (Some (quoted (lit "five"))).
Proof. split; reflexivity. Qed.

(** The text of an integral number of 22 digits or more is in exponent
    form, and the suffix comes after the exponent. *)
Example double_1e21 :
  serializeValue (VDouble num_1e21 None) = Ok (Some (lit "1e+21.0")).
Proof. reflexivity. Qed.

(** C2, amended: with a [space] whose indent unit is empty [stringify]
    returns the minified text itself, the reflow pass is not run.  The
    reflow pass with the empty indent unit returns the minified text with,
    outside the string literals, a newline before every closing bracket
    that does not come directly after an opening bracket, a newline after
    every opening bracket that does not come directly before a closing
    bracket and after every comma, and a space after every colon; removing
    the white space outside the string literals from it gives the minified
    text back. *)
Theorem C2_empty_indent v t :
  serializeValue v = Ok (Some t) ->
  (forall r space, indent_unit space = Ok [] -> stringify v r space = Ok (Some t)) /\
  prettyPrint t [] = Ok (reflow_empty None Out t) /\
  strip_ws (reflow_empty None Out t) = t.
Proof.
  intros Hv. split.
  - intros r space Hind. by rewrite (stringify_indent_unit v r space t [] Hv Hind).
  - pose proof (serializeValue_inner _ _ Hv) as Hin.
    destruct (inner_prettyPrint t [] Hin) as [out Hout].
    rewrite Hout. rewrite scan_prettyPrint in Hout.
    rewrite <- (scan_reflow_empty t None Out 0 out Hout).
    split; [done|].
    apply (scan_strip [] t None Out 0 out);
      [ constructor | by apply inner_ws_free | done ].
Qed.

Lemma C2_witness :
  let t := lit "{" ++ quoted (lit "a") ++ lit ":1}" in
  (forall r space, indent_unit space = Ok [] ->
     stringify (VObject [(lit "a", VNumber (num 1))]) r space = Ok (Some t)) /\
  prettyPrint t [] = Ok (reflow_empty None Out t) /\
  strip_ws (reflow_empty None Out t) = t.
Proof.
  apply (C2_empty_indent (VObject [(lit "a", VNumber (num 1))])). reflexivity.
Defined.

(** The reflow of an object in an array, of an empty object and of a
    string with brackets. *)
Example reflow_empty_ex :
  reflow_empty None Out (lit "[{" ++ qlit "a" ++ lit ":1},2]")
  = lit "[" ++ [Ch.newline] ++ lit "{" ++ [Ch.newline] ++ qlit "a"
    ++ lit ": 1" ++ [Ch.newline] ++ lit "}," ++ [Ch.newline] ++ lit "2"
    ++ [Ch.newline] ++ lit "]" /\
  reflow_empty None Out (lit "{}") = lit "{}" /\
  reflow_empty None Out (qlit "[1,2]") = qlit "[1,2]".
Proof. repeat split; reflexivity. Qed.

(** C2 as stated fails: the reflow pass with the empty indent unit still
    breaks the lines of a non-empty array. *)
Lemma C2_counterexample :
  serializeValue (VArray [Some (VNumber (num 1))]) = Ok (Some (lit "[1]")) /\
  prettyPrint (lit "[1]") []
    = Ok (lit "[" ++ [Ch.newline] ++ lit "1" ++ [Ch.newline] ++ lit "]") /\
  prettyPrint (lit "[1]") [] <> Ok (lit "[1]").
Proof. repeat split; done. Qed.

(** C3, amended: on every text [t] of the encoder and with every indent
    unit, the reflow pass returns, and what it returns is the concatenation
    of one chunk per token of [t].  The tokens partition [t], its string
    literals are whole, and the chunk of a string literal is the literal
    itself, character for character, escape sequences included: the
    newlines, indents and spaces the pass adds are in the chunks of the
    characters outside the literals.  When the indent unit has no double
    quote, the string literals of the reflowed text are those of [t]. *)
Theorem C3_literals_verbatim v t indent :
  serializeValue v = Ok (Some t) ->
  exists chunks,
    prettyPrint t indent = Ok (concat chunks) /\
    Forall2 (chunk_of indent) (tokenize t) chunks /\
    concat (token_text <$> tokenize t) = t /\
    Forall complete_token (tokenize t) /\
    (Forall (fun c => c <> Ch.dquote) indent ->
     literals (concat chunks) = literals t).
Proof.
  intros Hv. pose proof (serializeValue_inner _ _ Hv) as Hin.
  destruct (inner_prettyPrint t indent Hin) as [out Hout].
  rewrite scan_prettyPrint in Hout |- *.
  destruct (scan_chunks indent t None Out 0 [] out ltac:(done) Hout)
    as (chunks & Hc & HF).
  simpl in Hc. subst out. exists chunks.
  split; [done|]. split; [done|]. split; [apply tokenize_concat|].
  split; [apply Hin|].
  intros Hq. by apply (scan_literals indent t None Out 0 []).
Qed.

Lemma C3_witness :
  exists chunks,
    prettyPrint sample_text (lit "  ") = Ok (concat chunks) /\
    Forall2 (chunk_of (lit "  ")) (tokenize sample_text) chunks /\
    concat (token_text <$> tokenize sample_text) = sample_text /\
    Forall complete_token (tokenize sample_text) /\
    (Forall (fun c => c <> Ch.dquote) (lit "  ") ->
     literals (concat chunks) = literals sample_text).
Proof.
  apply (C3_literals_verbatim sample_value). reflexivity.
Defined.

Example sample_text_literals :
  literals sample_text
  = [quoted (lit "k" ++ [Ch.backslash; Ch.dquote]);
     quoted (lit "a" ++ [Ch.backslash; Ch.backslash; Ch.backslash]
             ++ lit "n,b: {")].
Proof. reflexivity. Qed.

(** C3 as stated fails for an indent unit that holds a double quote: the
    quotes of the indent open and close string literals in the output.
    With the indent unit of one double quote the array of the string [a]
    reflows to a text whose string literals are an empty one and one that
    is not closed and holds a newline. *)
Lemma C3_counterexample :
  serializeValue (VArray [Some (VString (lit "a"))])
    = Ok (Some (lit "[" ++ qlit "a" ++ lit "]")) /\
  stringify (VArray [Some (VString (lit "a"))]) None (SpaceStr [Ch.dquote])
    = Ok (Some (lit "[" ++ [Ch.newline; Ch.dquote] ++ qlit "a"
                ++ [Ch.newline] ++ lit "]")) /\
  literals (lit "[" ++ qlit "a" ++ lit "]") = [qlit "a"] /\
  literals (lit "[" ++ [Ch.newline; Ch.dquote] ++ qlit "a"
            ++ [Ch.newline] ++ lit "]")
    = [quoted []; Ch.dquote :: Ch.newline :: lit "]"] /\
  literals (lit "[" ++ [Ch.newline; Ch.dquote] ++ qlit "a"
            ++ [Ch.newline] ++ lit "]")
    <> literals (lit "[" ++ qlit "a" ++ lit "]").
Proof. repeat split; done. Qed.

(** C4, amended: with an indent unit of white space, removing the white
    space outside the string literals from the reflowed text gives the
    encoder's text back. *)
Theorem C4_structural_round_trip v t indent :
  serializeValue v = Ok (Some t) ->
  Forall (fun c => is_ws c = true) indent ->
  exists out, prettyPrint t indent = Ok out /\ strip_ws out = t.
Proof.
  intros Hv Hind. pose proof (serializeValue_inner _ _ Hv) as Hin.
  destruct (inner_prettyPrint t indent Hin) as [out Hout].
  exists out. split; [done|]. rewrite scan_prettyPrint in Hout.
  eapply scan_strip; eauto using inner_ws_free.
Qed.

Lemma C4_witness :
  exists out,
    prettyPrint (lit "[1,[]," ++ quoted (lit "a b") ++ lit "]") [Ch.tab] = Ok out
    /\ strip_ws out = lit "[1,[]," ++ quoted (lit "a b") ++ lit "]".
Proof.
  apply (C4_structural_round_trip
           (VArray [Some (VNumber (num 1)); Some (VArray []);
                    Some (VString (lit "a b"))])).
  - reflexivity.
  - repeat constructor.
Defined.

(** C4 as stated fails for an indent unit that is not white space: with
    the indent unit [-] the array [[1]] reflows to a text that strips to
    [[-1]]. *)
Lemma C4_counterexample :
  serializeValue (VArray [Some (VNumber (num 1))]) = Ok (Some (lit "[1]")) /\
  prettyPrint (lit "[1]") (lit "-")
    = Ok (lit "[" ++ [Ch.newline] ++ lit "-1" ++ [Ch.newline] ++ lit "]") /\
  strip_ws (lit "[" ++ [Ch.newline] ++ lit "-1" ++ [Ch.newline] ++ lit "]")
    = lit "[-1]" /\
  lit "[-1]" <> lit "[1]".
Proof. repeat split; done. Qed.

(** C5: on a sparse array the encoder leaves the holes empty instead of
    writing [null]: [[1,,3]] gives [[1,,3]] and an array of one hole gives
    the empty array. *)
Theorem C5_sparse_array :
  serializeValue (VArray [Some (VNumber (num 1)); None; Some (VNumber (num 3))])
    = Ok (Some (lit "[1,,3]")) /\
  serializeValue (VArray [None]) = Ok (Some (lit "[]")) /\
  serializeValue (VArray [Some (VNumber (num 1)); Some VUndefined;
                          Some (VNumber (num 3))])
    = Ok (Some (lit "[1,null,3]")).
Proof. repeat split. Qed.

(** C6: a value without JSON form at the root makes [stringify] return
    [undefined] whatever the [space]; that is the case of [undefined], of a
    function and of a symbol.  [undefined] is no string, and [null] gives
    the string [null]. *)
Theorem C6_not_serializable :
  (forall v r space, serializeValue v = Ok None -> stringify v r space = Ok None) /\
  serializeValue VUndefined = Ok None /\
  serializeValue VFunction = Ok None /\
  serializeValue VSymbol = Ok None /\
  (forall r, stringify VNull r SpaceAbsent = Ok (Some (lit "null"))) /\
  (forall s : text, Ok None <> Ok (Some s) :> completion (option text)).
Proof.
  repeat split; try done.
  intros v r space H. unfold stringify. by rewrite H.
Qed.

Lemma C6_witness :
  stringify VFunction None (SpaceNum (num (-1))) = Ok None.
Proof. apply (proj1 C6_not_serializable). reflexivity. Defined.

(** C7: a count of -1 or less has no indent unit: [Math.min] caps the
    count from above only, [repeat] throws a [RangeError] on the negative
    count and [stringify] returns neither the minified nor a reflowed
    text. *)
Theorem C7_negative_count :
  serializeValue VNull = Ok (Some (lit "null")) /\
  indent_unit (SpaceNum (num (-1))) = Throw RangeError /\
  stringify VNull None (SpaceNum (num (-1))) = Throw RangeError /\
  stringify VNull None (SpaceNum (Infinity true)) = Throw RangeError /\
  stringify VNull None (SpaceNum (num 0)) = Ok (Some (lit "null")).
Proof. repeat split. Qed.




(** C9, amended: on an object whose listed keys are assignable (no accessor
    at a listed key; a listed key that holds a number is a writable data
    property, and the object is extensible when that property is inherited)
    [markAsDouble] returns the reference it was given and calls no setter.
    In the heap after the call every listed key whose value was a plain
    number holds the wrapper of that number, every other key (listed with a
    non-number or an absent value, or not listed) reads as before, and
    every other object is untouched.  The object keeps its prototype chain
    and extensibility; its own keys are those it had and the listed keys
    whose number was inherited, and they are the same keys in the same
    order when every listed number was a property of the object itself. *)
Theorem C9_markAsDouble_frame (h : heap) (obj : ref) (o : object) keys :
  h !! obj = Some o ->
  Forall (fun key => assignable o key = true) keys ->
  exists (h' : heap) (o' : object),
    markAsDouble h obj keys = Ok (h', obj) /\
    h' !! obj = Some o' /\
    (forall obj', obj' <> obj -> h' !! obj' = h !! obj') /\
    inherited o' = inherited o /\ extensible o' = extensible o /\
    setter_calls o' = setter_calls o /\
    (forall key, key ∈ (own o').*1 <->
                 key ∈ (own o).*1
                 \/ (key ∈ keys /\ typeof (get o key) = TNumber)) /\
    (Forall (fun key => markable o key = true) keys ->
     (own o').*1 = (own o).*1) /\
    (forall key n, key ∈ keys -> get o key = VNumber n ->
                   get o' key = VDouble n None) /\
    (forall key, key ∈ keys -> typeof (get o key) <> TNumber ->
                 get o' key = get o key) /\
    (forall key, key ∉ keys -> get o' key = get o key).
Proof.
  intros Ho Hm. unfold markAsDouble. rewrite Ho.
  destruct (markAsDouble_loop_assignable keys o Hm)
    as (o' & Hloop & Hinh & Hext & Hcalls & Hkeys & Hget).
  rewrite Hloop. exists (<[obj := o']> h), o'. simpl.
  split; [done|]. split; [ apply lookup_insert_eq | ].
  split; [ intros obj' Hne; by apply lookup_insert_ne | ].
  do 4 (split; [done|]). split; [ | split; [ | split ] ].
  - intros Hown.
    destruct (markAsDouble_loop_spec keys o Hown) as (o2 & Hloop2 & Heq & _).
    rewrite Hloop in Hloop2. by apply Ok_inj in Hloop2 as <-.
  - intros key n Hin Hn. by rewrite Hget, decide_True, Hn.
  - intros key Hin Hty. by rewrite Hget, decide_True, marked_id.
  - intros key Hnin. by rewrite Hget, decide_False.
Qed.

Lemma C9_witness :
  let o := record [(lit "a", VNumber (num 1)); (lit "b", VString (lit "x"))] in
  exists (h' : heap) (o' : object),
    markAsDouble {[ 1%positive := o ]} 1%positive [lit "a"; lit "b"; lit "c"]
      = Ok (h', 1%positive) /\
    h' !! 1%positive = Some o' /\
    (forall obj', obj' <> 1%positive ->
                  h' !! obj' = ({[ 1%positive := o ]} : heap) !! obj') /\
    inherited o' = inherited o /\ extensible o' = extensible o /\
    setter_calls o' = setter_calls o /\
    (forall key, key ∈ (own o').*1 <->
                 key ∈ (own o).*1
                 \/ (key ∈ [lit "a"; lit "b"; lit "c"]
                     /\ typeof (get o key) = TNumber)) /\
    (Forall (fun key => markable o key = true) [lit "a"; lit "b"; lit "c"] ->
     (own o').*1 = (own o).*1) /\
    (forall key n, key ∈ [lit "a"; lit "b"; lit "c"] -> get o key = VNumber n ->
                   get o' key = VDouble n None) /\
    (forall key, key ∈ [lit "a"; lit "b"; lit "c"] ->
                 typeof (get o key) <> TNumber -> get o' key = get o key) /\
    (forall key, key ∉ [lit "a"; lit "b"; lit "c"] -> get o' key = get o key).
Proof.
  intros o.
  apply (C9_markAsDouble_frame {[ 1%positive := o ]} 1%positive o).
  - reflexivity.
  - by repeat constructor.
Defined.

(** A number that the object inherits is wrapped in a new own property of
    the object, which comes after the keys it had; the prototype keeps the
    number. *)
Example markAsDouble_inherited :
  let o := {| own := [(lit "y", Data (VNumber (num 2)) true true)];
              inherited := (lit "x", Data (VNumber (num 1)) true true)
                           :: Object_prototype;
              extensible := true; setter_calls := [] |} in
  let o' := {| own := [(lit "y", Data (VNumber (num 2)) true true);
                       (lit "x", Data (VDouble (num 1) None) true true)];
               inherited := inherited o;
               extensible := true; setter_calls := [] |} in
  assignable o (lit "x") = true /\ markable o (lit "x") = false /\
  markAsDouble {[ 1%positive := o ]} 1%positive [lit "x"]
  = Ok ({[ 1%positive := o' ]}, 1%positive) /\
  get o' (lit "x") = VDouble (num 1) None /\
  get o' (lit "y") = get o (lit "y").
Proof. repeat split; vm_compute; reflexivity. Qed.

(** C9 as stated fails on an object with a listed key that is not
    assignable.  On a frozen object that holds a number, and on an object
    that is not extensible and inherits the number, the assignment throws a
    [TypeError] and no object is returned.  At an accessor the call returns
    and has called the setter with the wrapper, and the key reads as the
    plain number it read as before: it was not replaced. *)
Lemma C9_counterexample :
  markAsDouble
    {[ 1%positive := freeze (record [(lit "x", VNumber (num 1))]) ]}
    1%positive [lit "x"]
  = Throw TypeError /\
  markAsDouble
    {[ 1%positive :=
         {| own := [];
            inherited := (lit "x", Data (VNumber (num 1)) true true)
                         :: Object_prototype;
            extensible := false; setter_calls := [] |} ]}
    1%positive [lit "x"]
  = Throw TypeError /\
  (let o := {| own := [(lit "x", Accessor (Some (VNumber (num 1))) true true)];
               inherited := Object_prototype;
               extensible := true; setter_calls := [] |} in
   let o' := {| own := own o; inherited := inherited o; extensible := true;
                setter_calls := [(lit "x", VDouble (num 1) None)] |} in
   get o (lit "x") = VNumber (num 1) /\
   markAsDouble {[ 1%positive := o ]} 1%positive [lit "x"]
   = Ok ({[ 1%positive := o' ]}, 1%positive) /\
   get o' (lit "x") = VNumber (num 1) /\
   get o' (lit "x") <> VDouble (num 1) None).
Proof.
  split; [ vm_compute; reflexivity | ].
  split; [ vm_compute; reflexivity | ].
  split; [ done | ]. split; [ vm_compute; reflexivity | ]. done.
Qed.

(** C10, amended: on an object whose listed keys are assignable, marking
    the same keys a second time changes nothing: the first call leaves no
    plain number under a listed key, so the second call skips every key and
    wraps nothing, and the number every key stands for is the one it stood
    for before the first call. *)
Theorem C10_markAsDouble_idempotent (h : heap) (obj : ref) (o : object) keys :
  h !! obj = Some o ->
  Forall (fun key => assignable o key = true) keys ->
  exists (h' : heap) (o' : object),
    markAsDouble h obj keys = Ok (h', obj) /\
    markAsDouble h' obj keys = Ok (h', obj) /\
    h' !! obj = Some o' /\
    (forall key, key ∈ keys -> typeof (get o' key) <> TNumber) /\
    (forall key,
        get o' key = (if decide (key ∈ keys) then marked (get o key)
                      else get o key) /\
        marked (get o' key) = marked (get o key) /\
        numeric_value (get o' key) = numeric_value (get o key)).
Proof.
  intros Ho Hm. unfold markAsDouble. rewrite Ho.
  destruct (markAsDouble_loop_assignable keys o Hm)
    as (o' & -> & Hinh & Hext & Hcalls & Hkeys & Hget).
  exists (<[obj := o']> h), o'. simpl. rewrite lookup_insert_eq.
  assert (Hskip : forall key, key ∈ keys -> typeof (get o' key) <> TNumber).
  { intros key Hkey. rewrite Hget, decide_True by done.
    apply marked_not_number. }
  rewrite markAsDouble_loop_fixed by done.
  simpl. rewrite insert_insert_eq. do 4 (split; [done|]).
  intros key. rewrite Hget.
  destruct (decide (key ∈ keys));
    by rewrite ?marked_marked, ?numeric_value_marked.
Qed.

Lemma C10_witness :
  let o := record [(lit "a", VNumber (num 1)); (lit "b", VString (lit "x"))] in
  exists (h' : heap) (o' : object),
    markAsDouble {[ 1%positive := o ]} 1%positive [lit "a"; lit "b"]
      = Ok (h', 1%positive) /\
    markAsDouble h' 1%positive [lit "a"; lit "b"] = Ok (h', 1%positive) /\
    h' !! 1%positive = Some o' /\
    (forall key, key ∈ [lit "a"; lit "b"] -> typeof (get o' key) <> TNumber) /\
    (forall key,
        get o' key = (if decide (key ∈ [lit "a"; lit "b"])
                      then marked (get o key) else get o key) /\
        marked (get o' key) = marked (get o key) /\
        numeric_value (get o' key) = numeric_value (get o key)).
Proof.
  intros o.
  apply (C10_markAsDouble_idempotent {[ 1%positive := o ]} 1%positive o).
  - reflexivity.
  - by repeat constructor.
Defined.

(** C10 as stated fails at an accessor: the first call has the setter
    called with the wrapper, and after it the listed key still reads as a
    plain number; so the second call does not skip the key: it wraps the
    number and calls the setter once more, and the object after the second
    call is not the object after the first.  On a frozen object that holds
    a number the first call throws. *)
Lemma C10_counterexample :
  let x := lit "x" in
  let d := VDouble (num 1) None in
  let o calls := {| own := [(x, Accessor (Some (VNumber (num 1))) true true)];
                    inherited := Object_prototype;
                    extensible := true; setter_calls := calls |} in
  markAsDouble {[ 1%positive := o [] ]} 1%positive [x]
  = Ok ({[ 1%positive := o [(x, d)] ]}, 1%positive) /\
  typeof (get (o [(x, d)]) x) = TNumber /\
  markAsDouble {[ 1%positive := o [(x, d)] ]} 1%positive [x]
  = Ok ({[ 1%positive := o [(x, d); (x, d)] ]}, 1%positive) /\
  ({[ 1%positive := o [(x, d); (x, d)] ]} : heap)
  <> {[ 1%positive := o [(x, d)] ]} /\
  markAsDouble
    {[ 1%positive := freeze (record [(x, VNumber (num 1))]) ]} 1%positive [x]
  = Throw TypeError.
Proof.
  intros x d o.
  split; [ vm_compute; reflexivity | ]. split; [ done | ].
  split; [ vm_compute; reflexivity | ]. split; [ | vm_compute; reflexivity ].
  intros H. apply (f_equal (fun m : heap => m !! 1%positive)) in H.
  rewrite !lookup_singleton_eq in H. by injection H.
Qed.

(** * Further properties *)

(** ** What [serializeValue] returns and throws *)



(** ** The call stack *)











Lemma serializeValue_resolve v :
  serializeValue v = serializeValue (resolve_toJSON v).
Proof. induction v using value_ind; simpl; done. Qed.

Lemma serializeValue_None v :
  serializeValue v = Ok None <-> no_json_form (resolve_toJSON v) = true.
Proof.
  induction v as [| |b|n|z|s| | |n tj|tv|ret IH|items _|props _|mprops|err]
    using value_ind; cbn [serializeValue resolve_toJSON]; try done.
  - destruct (toISOString tv); simpl; done.
  - destruct (mapM _ items); simpl; done.
  - destruct (mapM _ props); simpl; done.
Qed.

Lemma stringify_None v r space :
  stringify v r space = Ok None <-> serializeValue v = Ok None.
Proof.
  unfold stringify.
  destruct (serializeValue v) as [[t|]|e]; simpl; [ | done | done ].
  split; [ | done ].
  destruct (falsy space); [ done | ].
  destruct (match space with
            | SpaceAbsent => _ | SpaceNum n => _ | SpaceStr s => _
            end) as [ind|e]; simpl; [ | done ].
  case_bool_decide; [ done | ].
  destruct (prettyPrint t ind); simpl; done.
Qed.

(** X2: [serializeValue] returns [undefined] exactly when the calls of
    [toJSON] end in [undefined], a function, a symbol or a bigint, and
    [stringify] returns [undefined] in the same case and in no other,
    whatever the [space]. *)
Theorem serializeValue_undefined v :
  (serializeValue v = Ok None <-> no_json_form (resolve_toJSON v) = true) /\
  (forall r space,
     stringify v r space = Ok None <-> no_json_form (resolve_toJSON v) = true).
Proof.
  split; [ apply serializeValue_None | ].
  intros r space. by rewrite stringify_None, serializeValue_None.
Qed.

Lemma serializeValue_undefined_witness :
  serializeValue (VArray [Some VFunction]) <> Ok None /\
  stringify (VCustom (VCustom VSymbol)) None (SpaceNum (num 2)) = Ok None.
Proof.
  split.
  - intros H.
    apply (proj1 (proj1 (serializeValue_undefined (VArray [Some VFunction]))))
      in H.
    discriminate H.
  - apply (proj2 (serializeValue_undefined (VCustom (VCustom VSymbol)))).
    reflexivity.
Defined.

(** ** Decimal digits *)

Lemma digit_char_decimal d :
  (d < 10)%N -> digit_char d = (48 + d)%N /\ is_digit (digit_char d) = true.
Proof.
  intros Hd. unfold digit_char, is_digit.
  rewrite (proj2 (N.ltb_lt _ _)) by lia. split; [done|].
  apply andb_true_iff. split; apply N.leb_le; lia.
Qed.

(** The digits of a positive number: the first one is not zero, and there
    are [d] of them when the number lies between [10^(d-1)] and [10^d]. *)
Lemma to_radix_aux_decimal fuel : forall n acc,
  (n < 2 ^ N.of_nat fuel)%N -> (0 < n)%N ->
  exists c ds,
    to_radix_aux fuel 10 n acc = c :: ds ++ acc /\
    (49 <= c <= 57)%N /\ Forall (fun c => is_digit c = true) ds /\
    (10 ^ N.of_nat (length ds) <= n < 10 ^ N.of_nat (S (length ds)))%N.
Proof.
  induction fuel as [|fuel IH]; intros n acc Hn Hpos.
  - simpl in Hn. lia.
  - cbn [to_radix_aux].
    assert (Hm : (n mod 10 < 10)%N) by (apply N.mod_upper_bound; lia).
    assert (Hdiv : (n = 10 * (n / 10) + n mod 10)%N)
      by (apply N.div_mod; lia).
    destruct (digit_char_decimal _ Hm) as [Hc Hd].
    destruct (N.eqb_spec (n / 10) 0) as [Hz|Hnz].
    + exists (digit_char (n mod 10)), []. simpl.
      repeat split; [ lia | lia | done | lia | lia ].
    + destruct (IH (n / 10)%N (digit_char (n mod 10) :: acc))
        as (c & ds & -> & Hcr & Hds & Hlo & Hhi); [ | lia | ].
      * rewrite Nat2N.inj_succ, N.pow_succ_r' in Hn.
        apply N.Div0.div_lt_upper_bound. nia.
      * exists c, (ds ++ [digit_char (n mod 10)]).
        rewrite <- app_assoc. simpl. split; [done|]. split; [done|].
        split; [ apply Forall_app; split; [done | by constructor] | ].
        rewrite length_app. simpl length.
        replace (length ds + 1)%nat with (S (length ds)) by lia.
        rewrite !Nat2N.inj_succ, !N.pow_succ_r' in *.
        clear IH Hc Hd Hnz. revert Hm Hdiv Hlo Hhi.
        generalize (n / 10)%N (n mod 10)%N (10 ^ N.of_nat (length ds))%N.
        lia.
Qed.

Lemma decimal_pos n :
  (0 < n)%N ->
  exists c ds,
    decimal n = c :: ds /\
    (49 <= c <= 57)%N /\ Forall (fun c => is_digit c = true) ds /\
    (10 ^ N.of_nat (length ds) <= n < 10 ^ N.of_nat (S (length ds)))%N.
Proof.
  intros Hn. unfold decimal, to_radix.
  destruct (to_radix_aux_decimal (S (N.to_nat (N.size n))) n [])
    as (c & ds & H & ?); [ | done | ].
  - rewrite Nat2N.inj_succ, N2Nat.id, N.pow_succ_r'.
    pose proof (N.size_gt n). lia.
  - rewrite app_nil_r in H. eauto.
Qed.

Lemma decimal_digits n :
  decimal n <> [] /\ Forall (fun c => is_digit c = true) (decimal n).
Proof.
  destruct n as [|p].
  - split; [done | by repeat constructor].
  - destruct (decimal_pos (N.pos p)) as (c & ds & -> & Hc & Hds & _); [lia|].
    split; [done|]. constructor; [|done].
    unfold is_digit. apply andb_true_iff. split; apply N.leb_le; lia.
Qed.

(** [num_k s] is the number of digits of [s]. *)
Lemma num_k_bounds s :
  1 <= num_k s /\ 10 ^ (num_k s - 1) <= Z.pos s < 10 ^ num_k s.
Proof.
  unfold num_k, num_digits.
  destruct (decimal_pos (N.pos s)) as (c & ds & -> & _ & _ & Hlo & Hhi);
    [lia|].
  simpl length. split; [lia|].
  replace (Z.of_nat (S (length ds)) - 1) with (Z.of_nat (length ds)) by lia.
  assert (H10 : forall k : nat, 10 ^ Z.of_nat k = Z.of_N (10 ^ N.of_nat k)).
  { intros k. rewrite N2Z.inj_pow, nat_N_Z. done. }
  rewrite !H10. lia.
Qed.

(** ** The indent unit of every count *)

Lemma Number_lt_10_negative s e :
  Number_lt num_10 (Finite true s e) = false.
Proof.
  unfold Number_lt, scaled, num_10.
  set (a := Z.min _ _). apply Z.ltb_ge.
  assert (0 <= 10 ^ (e - num_k s - a)) by (apply Z.pow_nonneg; lia).
  assert (0 <= 10 ^ (2 - num_k 1 - a)) by (apply Z.pow_nonneg; lia).
  nia.
Qed.

Lemma truncate_negative s e :
  truncate true s e < 0 <-> 1 <= e.
Proof.
  unfold truncate. destruct (num_k_bounds s) as (Hk & Hlo & Hhi).
  destruct (Z.leb_spec (num_k s) e) as [Hle|Hlt].
  - assert (0 < 10 ^ (e - num_k s)) by (apply Z.pow_pos_nonneg; lia). nia.
  - destruct (Z.le_gt_cases 1 e) as [He|He].
    + assert (10 ^ (num_k s - e) <= 10 ^ (num_k s - 1))
        by (apply Z.pow_le_mono_r; lia).
      assert (0 < 10 ^ (num_k s - e)) by (apply Z.pow_pos_nonneg; lia).
      assert (1 <= Z.pos s / 10 ^ (num_k s - e))
        by (apply Z.div_le_lower_bound; lia).
      lia.
    + assert (10 ^ num_k s <= 10 ^ (num_k s - e))
        by (apply Z.pow_le_mono_r; lia).
      rewrite Z.div_small by lia. lia.
Qed.

Lemma truncate_positive s e : 0 <= truncate false s e.
Proof.
  unfold truncate. destruct (Z.leb_spec (num_k s) e).
  - assert (0 <= 10 ^ (e - num_k s)) by (apply Z.pow_nonneg; lia). nia.
  - apply Z.div_pos; [ lia | apply Z.pow_pos_nonneg; lia ].
Qed.

(** [10 < x] for a positive [x] says that [x] truncates to 10 or more, and
    its negation that [x] truncates to 10 or less. *)
Lemma Number_lt_10_positive s e :
  if Number_lt num_10 (Finite false s e) then 10 <= truncate false s e
  else truncate false s e <= 10.
Proof.
  unfold Number_lt, scaled, num_10, truncate.
  change (num_k 1) with 1. change (2 - 1) with 1.
  destruct (Z.leb_spec (num_k s) e) as [Hle|Hlt].
  - destruct (Z.eq_dec e (num_k s)) as [->|Hne].
    + rewrite Z.sub_diag. change (Z.min 1 0) with 0.
      change (10 ^ (1 - 0)) with 10. change (10 ^ (0 - 0)) with 1.
      destruct (Z.ltb_spec (1 * 10) (Z.pos s * 1)); lia.
    + rewrite Z.min_l by lia. rewrite Z.sub_diag. change (10 ^ 0) with 1.
      assert (Hp : 10 ^ (e - num_k s) = 10 * 10 ^ (e - num_k s - 1)).
      { replace (e - num_k s) with (1 + (e - num_k s - 1)) at 1 by lia.
        by rewrite Z.pow_add_r by lia. }
      rewrite Hp.
      assert (0 < 10 ^ (e - num_k s - 1)) by (apply Z.pow_pos_nonneg; lia).
      destruct (Z.ltb_spec (1 * 1) (Z.pos s * 10 ^ (e - num_k s - 1))); nia.
  - rewrite Z.min_r by lia. rewrite Z.sub_diag. change (10 ^ 0) with 1.
    assert (Hp : 10 ^ (1 - (e - num_k s)) = 10 * 10 ^ (num_k s - e)).
    { replace (1 - (e - num_k s)) with (1 + (num_k s - e)) by lia.
      by rewrite Z.pow_add_r by lia. }
    rewrite Hp.
    assert (HD : 0 < 10 ^ (num_k s - e)) by (apply Z.pow_pos_nonneg; lia).
    destruct (Z.ltb_spec (1 * (10 * 10 ^ (num_k s - e))) (Z.pos s * 1)).
    + apply Z.div_le_lower_bound; lia.
    + apply Z.lt_succ_r. apply Z.div_lt_upper_bound; lia.
Qed.

Lemma Math_min_10 x :
  Math_min x num_10 = if Number_lt num_10 x then num_10 else x.
Proof. by destruct x. Qed.

Lemma indent_unit_negative s e :
  indent_unit (SpaceNum (Finite true s e))
  = if 1 <=? e then Throw RangeError else Ok [].
Proof.
  unfold indent_unit. rewrite Math_min_10, Number_lt_10_negative.
  cbn [String_repeat]. unfold str_repeat.
  pose proof (truncate_negative s e) as Ht.
  destruct (Z.leb_spec 1 e) as [He|He].
  - rewrite (proj2 (Z.ltb_lt _ _)) by (apply Ht; lia). done.
  - rewrite (proj2 (Z.ltb_ge _ _)) by lia.
    assert (Hz : truncate true s e = 0).
    { assert (Hneg : truncate true s e = - truncate false s e) by done.
      pose proof (truncate_positive s e). lia. }
    by rewrite Hz.
Qed.

Lemma indent_unit_positive s e :
  indent_unit (SpaceNum (Finite false s e))
  = Ok (repeat Ch.space (Z.to_nat (Z.min (truncate false s e) 10))).
Proof.
  unfold indent_unit. rewrite Math_min_10.
  pose proof (Number_lt_10_positive s e) as Hlt.
  pose proof (truncate_positive s e) as Hpos.
  destruct (Number_lt num_10 (Finite false s e)).
  - rewrite Z.min_r by lia. done.
  - rewrite Z.min_l by lia. cbn [String_repeat].
    rewrite str_repeat_Ok by lia. by rewrite concat_repeat_singleton.
Qed.

(** X3: the indent unit of a numeric [space], for every number: a positive
    count is truncated and capped at 10 spaces; [NaN], zero and a negative
    count above -1 give the empty unit; a count of -1 or less and
    [-Infinity] make [repeat] throw, since [Math.min] caps from above
    only. *)
Theorem indent_unit_number n :
  indent_unit (SpaceNum n) =
  match n with
  | NaN | Zero _ => Ok []
  | Infinity neg =>
      if neg then Throw RangeError else Ok (repeat Ch.space 10)
  | Finite false s e =>
      Ok (repeat Ch.space (Z.to_nat (Z.min (truncate false s e) 10)))
  | Finite true s e => if 1 <=? e then Throw RangeError else Ok []
  end.
Proof.
  destruct n as [|neg|neg|neg s e]; try done.
  - by destruct neg.
  - destruct neg; [ apply indent_unit_negative | apply indent_unit_positive ].
Qed.




(** ** The encoder's text is minified *)




(** ** The reflow pass on any text *)

(** With an indent unit of white space the pass changes nothing but white
    space outside the string literals, whatever the text: balanced or not,
    minified or not. *)
Lemma scan_strip_any indent t : forall prev st depth out,
  Forall (fun c => is_ws c = true) indent ->
  scan indent prev st depth t = Ok out ->
  strip_from st out = strip_from st t.
Proof.
  induction t as [|c t IH]; intros prev st depth out Hind Hscan.
  - by injection Hscan as <-.
  - assert (Hin : st <> Out ->
      emit [c] (scan indent (Some c) (in_string_step st c) depth t) = Ok out ->
      strip_from st out = strip_from st (c :: t)).
    { intros Hst H. apply emit_Ok_inv in H as (out' & Hout' & ->).
      destruct st; [done| |]; simpl; f_equal; eauto. }
    destruct st; simpl in Hscan; [ | by apply Hin | by apply Hin ].
    clear Hin.
    assert (Hout : forall pre post d prev',
      c <> Ch.dquote ->
      Forall (fun c => is_ws c = true) pre ->
      Forall (fun c => is_ws c = true) post ->
      emit (pre ++ c :: post) (scan indent prev' Out d t) = Ok out ->
      strip_from Out out = strip_from Out (c :: t)).
    { intros pre post d prev' Hdq Hpre Hpost H.
      apply emit_Ok_inv in H as (out' & Hout' & ->).
      rewrite <- app_assoc, strip_from_ws by done. simpl.
      destruct (decide (c = Ch.dquote)); [done|].
      rewrite strip_from_ws by done.
      rewrite (IH _ _ _ _ Hind Hout'). done. }
    destruct (decide (c = Ch.dquote)) as [->|Hdq].
    { apply emit_Ok_inv in Hscan as (out' & Hout' & ->). simpl.
      f_equal. eauto. }
    assert (Hnl : forall d, Forall (fun c => is_ws c = true)
                         (Ch.newline :: concat (repeat indent d))).
    { intros d. constructor; [done | by apply concat_repeat_ws]. }
    destruct (is_open (Some c)).
    { destruct (negb (is_close (head t))).
      - apply bind_Ok_inv in Hscan as (ind & Hi & Hscan).
        apply str_repeat_Ok_inv in Hi as [_ ->].
        eapply (Hout [] (Ch.newline :: _)); eauto.
      - eapply (Hout [] []); eauto. }
    destruct (is_close (Some c)).
    { destruct (negb (is_open prev)).
      - apply bind_Ok_inv in Hscan as (ind & Hi & Hscan).
        apply str_repeat_Ok_inv in Hi as [_ ->].
        eapply (Hout (Ch.newline :: _) []); eauto.
      - eapply (Hout [] []); eauto. }
    destruct (decide (c = Ch.comma)) as [->|_].
    { apply bind_Ok_inv in Hscan as (ind & Hi & Hscan).
      apply str_repeat_Ok_inv in Hi as [_ ->].
      eapply (Hout [] (Ch.newline :: _)); eauto. }
    destruct (decide (c = Ch.colon)) as [->|_].
    { eapply (Hout [] [Ch.space]); eauto. }
    eapply (Hout [] []); eauto.
Qed.

(** X6: [prettyPrint] on any text, with an indent unit of white space: what
    it returns differs from its input in white space outside the string
    literals only. *)
Theorem prettyPrint_strip json indent out :
  Forall (fun c => is_ws c = true) indent ->
  prettyPrint json indent = Ok out ->
  strip_ws out = strip_ws json.
Proof.
  intros Hind H. rewrite scan_prettyPrint in H.
  by apply (scan_strip_any indent json None Out 0 out).
Qed.

Lemma prettyPrint_strip_witness :
  strip_ws (lit "{" ++ [Ch.newline; Ch.tab] ++ quoted (lit "a b")
            ++ lit " : " ++ [Ch.newline] ++ lit "1" ++ [Ch.newline]
            ++ lit "}")
  = strip_ws (lit "{" ++ quoted (lit "a b") ++ lit " :" ++ [Ch.newline]
              ++ lit "1}").
Proof.
  apply (prettyPrint_strip
           (lit "{" ++ quoted (lit "a b") ++ lit " :" ++ [Ch.newline]
            ++ lit "1}") [Ch.tab]).
  - repeat constructor.
  - reflexivity.
Defined.

(** ** String escaping *)

Lemma escapeString_app a b :
  escapeString (a ++ b) = escapeString a ++ escapeString b.
Proof. apply flat_map_app. Qed.

Lemma escape_char_length c : (2 <= length (escape_char c))%nat.
Proof.
  unfold escape_char. destruct (escape_lookup ESCAPE_MAP c) as [e|] eqn:E.
  - simpl in E.
    repeat match type of E with
           | (if ?b then _ else _) = _ => destruct b; [ by injection E as <- | ]
           end.
    done.
  - simpl. lia.
Qed.

(** X7: [escapeString] never shortens a string, and returns it unchanged
    exactly when it has no quote, no backslash and no control character. *)
Theorem escapeString_unchanged s :
  (length s <= length (escapeString s))%nat /\
  (escapeString s = s <-> Forall (fun c => needs_escape c = false) s).
Proof.
  assert (Hlen : forall s, (length s <= length (escapeString s))%nat).
  { induction s0 as [|c s0 IH]; [done|].
    change (escapeString (c :: s0))
      with ((if needs_escape c then escape_char c else [c]) ++ escapeString s0).
    rewrite length_app. pose proof (escape_char_length c).
    destruct (needs_escape c); simpl; lia. }
  split; [ apply Hlen | ].
  induction s as [|c s IH]; [ split; [ constructor | done ] | ].
  change (escapeString (c :: s))
    with ((if needs_escape c then escape_char c else [c]) ++ escapeString s).
  destruct (needs_escape c) eqn:Hc.
  - split.
    + intros H. apply (f_equal length) in H.
      rewrite length_app in H. simpl in H.
      pose proof (escape_char_length c). pose proof (Hlen s). lia.
    + intros H. inversion H; subst. congruence.
  - simpl. split.
    + intros [= H]. constructor; [ done | by apply IH ].
    + intros H. inversion H; subst. f_equal. by apply IH.
Qed.

Lemma unescape_escape_char c rest :
  needs_escape c = true ->
  unescape (escape_char c ++ rest) = s ← unescape rest; Some (c :: s).
Proof.
  unfold needs_escape. rewrite !orb_true_iff.
  intros [[->%N.eqb_eq | ->%N.eqb_eq] | Hc%N.leb_le]; [done | done | ].
  destruct c as [|p]; [done|].
  do 5 (try destruct p as [p|p|]); try lia; reflexivity.
Qed.

Lemma unescape_escape s : unescape (escapeString s) = Some s.
Proof.
  induction s as [|c s IH]; [done|].
  change (escapeString (c :: s))
    with ((if needs_escape c then escape_char c else [c]) ++ escapeString s).
  destruct (needs_escape c) eqn:Hc.
  - by rewrite unescape_escape_char, IH.
  - unfold needs_escape in Hc. rewrite !orb_false_iff in Hc.
    destruct Hc as [[Hq Hb] Hctl]. simpl.
    change (c =? 92)%N with (c =? Ch.backslash)%N. rewrite Hb.
    change (c =? 34)%N with (c =? Ch.dquote)%N. rewrite Hq, Hctl. simpl.
    by rewrite IH.
Qed.

(** X8: decoding the escaped form of a string gives the string back: the
    result of [escapeString] is the body of a JSON string literal and
    stands for the string that was escaped, so two strings with the same
    escaped form are the same string. *)
Theorem escapeString_round_trip s :
  unescape (escapeString s) = Some s /\
  (forall s', escapeString s' = escapeString s -> s' = s).
Proof.
  split; [ apply unescape_escape | ].
  intros s' H. pose proof (unescape_escape s') as Hs'.
  rewrite H, unescape_escape in Hs'. by injection Hs'.
Qed.

(** ** Arrays with holes *)

(** X9: the text of an array, holes included: one part per position, the text
    of the element, [null] for an element without JSON form, and the empty
    text for a hole, the parts joined by commas. *)
Theorem serializeValue_array elems parts :
  Forall2 (fun elem part =>
             match elem with
             | None => part = []
             | Some item =>
                 exists r, serializeValue item = Ok r
                           /\ part = default (lit "null") r
             end) elems parts ->
  serializeValue (VArray elems)
  = Ok (Some (lit "[" ++ join (lit ",") parts ++ lit "]")).
Proof.
  intros H. cbn [serializeValue].
  assert (Hm : exists items,
    mapM (fun elem : option value =>
            match elem with
            | None => Ok None
            | Some item =>
                r ← serializeValue item; Ok (Some (default (lit "null") r))
            end) elems = Ok items /\ map (default []) items = parts).
  { induction H as [|elem part elems parts He _ (items & Hi & Hp)].
    - by exists [].
    - destruct elem as [item|].
      + destruct He as (r & Hr & ->).
        exists (Some (default (lit "null") r) :: items). simpl.
        rewrite Hr. simpl. rewrite Hi. simpl. by rewrite Hp.
      + subst part. exists (None :: items). simpl. rewrite Hi. simpl.
        by rewrite Hp. }
  destruct Hm as (items & -> & <-). done.
Qed.

Lemma serializeValue_array_witness :
  serializeValue (VArray [Some (VNumber (num 1)); None; Some VFunction])
  = Ok (Some (lit "[" ++ join (lit ",") [lit "1"; []; lit "null"] ++ lit "]")).
Proof.
  apply (serializeValue_array
           [Some (VNumber (num 1)); None; Some VFunction]
           [lit "1"; []; lit "null"]).
  repeat constructor.
  - by exists (Some (lit "1")).
  - by exists None.
Defined.

(** ** Marking and the text of a value *)


(** ** Field marking as a map *)

Lemma property_elem_of (l : list (text * slot)) k s :
  NoDup l.*1 -> (k, s) ∈ l -> property l k = Some s.
Proof.
  induction l as [|[k' s'] l IH]; simpl; [ by intros _ ?%elem_of_nil | ].
  intros [Hk' Hnd]%NoDup_cons [[= -> ->]|Hin]%elem_of_cons.
  - by rewrite decide_True.
  - rewrite decide_False; [ by apply IH | ].
    intros ->. apply Hk'. apply list_elem_of_fmap. by exists (k, s).
Qed.

Lemma property_not_key (l : list (text * slot)) k :
  k ∉ l.*1 -> property l k = None.
Proof.
  induction l as [|[k' s'] l IH]; simpl; [done|].
  intros H. rewrite decide_False.
  - apply IH. intros ?. apply H. by apply list_elem_of_further.
  - intros ->. apply H. apply list_elem_of_here.
Qed.

(** In an object without repeated keys, the assignment of the wrapper to a
    writable data property that holds the number marks that one
    property. *)
Lemma replace_marked (l : list (text * slot)) k n e :
  NoDup l.*1 -> property l k = Some (Data (VNumber n) true e) ->
  replace l k (Data (VDouble n None) true e)
  = (fun ks : text * slot =>
       (ks.1, if decide (ks.1 ∈ [k]) then mark_slot ks.2 else ks.2)) <$> l.
Proof.
  induction l as [|[k' s'] l IH]; simpl; [done|].
  intros [Hk' Hnd]%NoDup_cons Hp.
  destruct (decide (k' = k)) as [->|Hne].
  - injection Hp as ->. rewrite decide_True by apply list_elem_of_here.
    simpl. f_equal.
    clear IH. induction l as [|[k2 s2] l IH]; [done|]. simpl in *.
    apply NoDup_cons in Hnd as [_ Hnd].
    rewrite decide_False.
    + f_equal. apply IH; [ | done ].
      intros ?. apply Hk'. by apply list_elem_of_further.
    + intros [->|?%elem_of_nil]%elem_of_cons; [ | done ].
      apply Hk', list_elem_of_here.
  - rewrite decide_False
      by (intros [->|?%elem_of_nil]%elem_of_cons; done).
    f_equal. by apply IH.
Qed.

Lemma mark_fields_keys keys (o : object) :
  (own (mark_fields keys o)).*1 = (own o).*1.
Proof.
  unfold mark_fields. simpl. rewrite <- list_fmap_compose. done.
Qed.

Lemma mark_slot_mark_slot s : mark_slot (mark_slot s) = mark_slot s.
Proof. destruct s; simpl; by rewrite ?marked_marked. Qed.

Lemma mark_fields_cons k keys (o : object) :
  mark_fields keys (mark_fields [k] o) = mark_fields (k :: keys) o.
Proof.
  unfold mark_fields. simpl. f_equal. rewrite <- list_fmap_compose.
  apply list_fmap_ext. intros i [k' s] _. simpl. f_equal.
  destruct (decide (k' = k)) as [->|Hne].
  - rewrite (decide_True (P := k ∈ [k])) by apply list_elem_of_here.
    rewrite (decide_True (P := k ∈ k :: keys)) by apply list_elem_of_here.
    destruct (decide (k ∈ keys)); by rewrite ?mark_slot_mark_slot.
  - rewrite (decide_False (P := k' ∈ [k]))
      by (intros [->|?%elem_of_nil]%elem_of_cons; done).
    destruct (decide (k' ∈ keys)) as [Hin|Hnin].
    + rewrite decide_True; [ done | by apply list_elem_of_further ].
    + rewrite decide_False; [ done | ].
      by intros [->|?]%elem_of_cons.
Qed.

Lemma mark_fields_not_number k keys (o : object) :
  NoDup (own o).*1 -> typeof (get o k) <> TNumber ->
  mark_fields (k :: keys) o = mark_fields keys o.
Proof.
  intros Hnd Hty. unfold mark_fields. f_equal.
  apply list_fmap_ext. intros i [k' s] Hi. simpl. f_equal.
  destruct (decide (k' = k)) as [->|Hne].
  - rewrite (decide_True (P := k ∈ k :: keys)) by apply list_elem_of_here.
    assert (Hp : property (own o) k = Some s).
    { apply property_elem_of; [ done | ]. by eapply list_elem_of_lookup_2. }
    assert (Hs : mark_slot s = s).
    { unfold get in Hty. rewrite Hp in Hty.
      destruct s as [v w e|g st e]; simpl in *; [ | done ].
      by rewrite (marked_id v Hty). }
    rewrite Hs. by destruct (decide (k ∈ keys)).
  - destruct (decide (k' ∈ keys)) as [Hin|Hnin].
    + rewrite decide_True; [ done | by apply list_elem_of_further ].
    + rewrite decide_False; [ done | ].
      by intros [->|?]%elem_of_cons.
Qed.

Lemma markAsDouble_loop_map keys : forall o : object,
  NoDup (own o).*1 -> Forall (fun key => markable o key = true) keys ->
  markAsDouble_loop o keys = Ok (mark_fields keys o).
Proof.
  induction keys as [|k keys IH]; intros o Hnd Hm.
  - simpl. f_equal. destruct o as [ow inh ext calls].
    unfold mark_fields. simpl.
    f_equal. rewrite <- (list_fmap_id ow) at 1.
    apply list_fmap_ext. intros i [k s] _. simpl.
    by rewrite ?decide_False by apply not_elem_of_nil.
  - apply Forall_cons in Hm as [Hk Hm]. simpl. case_bool_decide as Hnum.
    + destruct (typeof_number _ Hnum) as [n Hn].
      destruct (markable_number o k Hk Hnum) as (v & e & Hown).
      assert (Hv : v = VNumber n).
      { unfold get in Hn. by rewrite Hown in Hn. }
      subst v. rewrite Hn. simpl.
      destruct (set_markable o k (VDouble n None) Hk Hnum)
        as (o1 & Hset & _ & _ & _ & _ & _ & Hmark1).
      assert (Ho1 : o1 = mark_fields [k] o).
      { unfold set in Hset. rewrite Hown in Hset.
        apply Ok_inj in Hset as <-. unfold mark_fields, with_own. f_equal.
        by apply replace_marked. }
      rewrite Hset. simpl. subst o1.
      rewrite IH.
      * by rewrite mark_fields_cons.
      * by rewrite mark_fields_keys.
      * eapply Forall_impl; [ exact Hm | ]. intros k'. by apply Hmark1.
    + rewrite IH by done. by rewrite mark_fields_not_number.
Qed.

Lemma mark_fields_ext keys keys' (o : object) :
  (forall k, k ∈ keys <-> k ∈ keys') -> mark_fields keys o = mark_fields keys' o.
Proof.
  intros H. unfold mark_fields. f_equal.
  apply list_fmap_ext. intros i [k s] _. simpl.
  f_equal. destruct (decide (k ∈ keys)) as [Hin|Hnin].
  - rewrite decide_True; [ done | by apply H ].
  - rewrite decide_False; [ done | by rewrite <- H ].
Qed.

(** X10: on an object without repeated keys whose listed keys are markable
    (no accessor at the key; a listed key that holds a number is an own
    writable data property) [markAsDouble] is a map over the own
    properties: the value of every listed key is replaced by its marked
    form, in place.  Only the set of the listed keys counts: their order and
    their repetitions do not. *)
Theorem markAsDouble_keys_set (h : heap) (obj : ref) (o : object) keys keys' :
  h !! obj = Some o -> NoDup (own o).*1 ->
  Forall (fun key => markable o key = true) keys ->
  (forall k, k ∈ keys <-> k ∈ keys') ->
  markAsDouble h obj keys = Ok (<[obj := mark_fields keys o]> h, obj) /\
  markAsDouble h obj keys' = markAsDouble h obj keys.
Proof.
  intros Ho Hnd Hm Hkeys. unfold markAsDouble. rewrite Ho.
  assert (Hm' : Forall (fun key => markable o key = true) keys').
  { rewrite Forall_forall in Hm |- *. intros k Hk. by apply Hm, Hkeys. }
  rewrite !markAsDouble_loop_map by done. simpl.
  by rewrite (mark_fields_ext keys keys' o Hkeys).
Qed.

Lemma markAsDouble_keys_set_witness :
  let o := record [(lit "a", VNumber (num 1)); (lit "b", VString (lit "x"));
                   (lit "c", VNumber (num 2))] in
  let h : heap := {[ 1%positive := o ]} in
  markAsDouble h 1%positive [lit "c"; lit "a"; lit "c"]
  = Ok (<[1%positive := mark_fields [lit "c"; lit "a"; lit "c"] o]> h,
        1%positive) /\
  markAsDouble h 1%positive [lit "a"; lit "c"]
  = markAsDouble h 1%positive [lit "c"; lit "a"; lit "c"].
Proof.
  apply (markAsDouble_keys_set
           {[ 1%positive := record [(lit "a", VNumber (num 1));
                                    (lit "b", VString (lit "x"));
                                    (lit "c", VNumber (num 2))] ]}
           1%positive).
  - reflexivity.
  - apply (bool_decide_unpack _). vm_compute. exact I.
  - by repeat constructor.
  - intros k. rewrite !elem_of_cons, !elem_of_nil. tauto.
Defined.

Lemma markAsDouble_loop_app keys1 keys2 : forall o : object,
  markAsDouble_loop o (keys1 ++ keys2)
  = markAsDouble_loop o keys1 ≫= fun o1 : object =>
      markAsDouble_loop o1 keys2.
Proof.
  induction keys1 as [|k keys1 IH]; intros o; [done|]. simpl.
  case_bool_decide; [ | apply IH ].
  destruct (Double (get o k)) as [d|e]; simpl; [ | done ].
  destruct (set o k d) as [o1|e]; simpl; [ apply IH | done ].
Qed.

(** X11: marking in two calls is marking in one: [markAsDouble] returns the
    object it was given, and a second call on it with further keys leaves
    the heap that one call with all the keys leaves. *)
Theorem markAsDouble_app (h : heap) (obj : ref) keys1 keys2 :
  markAsDouble h obj (keys1 ++ keys2)
  = markAsDouble h obj keys1 ≫= fun r : gmap positive object * positive =>
      markAsDouble r.1 r.2 keys2.
Proof.
  unfold markAsDouble. destruct (h !! obj) as [o|] eqn:Ho; simpl.
  - rewrite markAsDouble_loop_app.
    destruct (markAsDouble_loop o keys1) as [o1|e]; simpl; [ | done ].
    rewrite lookup_insert_eq.
    destruct (markAsDouble_loop o1 keys2) as [o2|e]; simpl; [ | done ].
    by rewrite insert_insert_eq.
  - by rewrite Ho.
Qed.






(** ** The global patch *)

(** X13: after [registerGlobalStringify] the global [JSON.stringify] is
    [stringify] on every value that has a JSON form, the replacer ignored
    and the exceptions of [stringify] included, and the function that was
    there before on the values whose calls of [toJSON] end in [undefined],
    a function, a symbol or a bigint. *)
Theorem registerGlobalStringify_stringify (JSON : JSON_object) v r space :
  JSON_stringify (registerGlobalStringify JSON) v r space
  = if no_json_form (resolve_toJSON v) then JSON_stringify JSON v r space
    else stringify v r space.
Proof.
  unfold registerGlobalStringify. simpl.
  pose proof (stringify_None v r space) as H1.
  pose proof (serializeValue_None v) as H2.
  destruct (no_json_form (resolve_toJSON v)).
  - rewrite (proj2 H1) by (by apply H2). done.
  - destruct (stringify v r space) as [[t|]|e]; simpl; [ done | | done ].
    assert (false = true) by (apply H2, H1; done). done.
Qed.

(** X14: registering twice installs a function that behaves as the one that
    registering once installs: the fallback of the second is the first,
    which is reached only where [stringify] returns [undefined] and then
    falls back itself. *)
Theorem registerGlobalStringify_twice (JSON : JSON_object) v r space :
  JSON_stringify (registerGlobalStringify (registerGlobalStringify JSON))
    v r space
  = JSON_stringify (registerGlobalStringify JSON) v r space.
Proof.
  unfold registerGlobalStringify. simpl.
  destruct (stringify v r space) as [[t|]|e]; simpl; done.
Qed.

(** ** The characters of the encoder's texts *)

Lemma word_char_spec c :
  word_char c = true ->
  inert c = true /\ c <> Ch.comma /\ c <> Ch.colon /\ not_control c = true.
Proof.
  unfold word_char, is_digit, not_control.
  rewrite !orb_true_iff, !andb_true_iff, !N.leb_le, !N.eqb_eq, N.ltb_lt.
  unfold Ch.plus, Ch.minus, Ch.dot, Ch.comma, Ch.colon.
  intros H. split; [ | lia ].
  apply inert_range; unfold Ch.comma; lia.
Qed.

Lemma digit_word c : is_digit c = true -> word_char c = true.
Proof. unfold word_char. by intros ->. Qed.

Lemma digits_word t :
  Forall (fun c => is_digit c = true) t -> Forall (fun c => word_char c = true) t.
Proof. intros H. eapply Forall_impl; [ exact H | apply digit_word ]. Qed.

Lemma word_lit s :
  forallb word_char (lit s) = true -> Forall (fun c => word_char c = true) (lit s).
Proof.
  intros H. apply Forall_forall. intros c Hc%list_elem_of_In.
  rewrite forallb_forall in H. by apply H.
Qed.

Lemma decimal_word n : Forall (fun c => word_char c = true) (decimal n).
Proof. apply digits_word, decimal_digits. Qed.

Lemma Number_toString_word x :
  Forall (fun c => word_char c = true) (Number_toString x).
Proof.
  assert (Hs : forall neg, Forall (fun c => word_char c = true) (sign_text neg))
    by (intros []; by repeat constructor).
  assert (Hz : forall k, Forall (fun c => word_char c = true) (repeat Ch.zero k))
    by (intros k; induction k; by constructor).
  destruct x as [|neg|neg|neg s n]; cbn [Number_toString].
  - by apply word_lit.
  - apply Forall_app. split; [ apply Hs | by apply word_lit ].
  - by apply word_lit.
  - pose proof (decimal_word (significand s)) as Hds.
    apply Forall_app. split; [ apply Hs | ].
    assert (He : Forall (fun c => word_char c = true)
                   (lit "e" ++ (if n <? 0 then [Ch.minus] else [Ch.plus])
                    ++ decimal (Z.to_N (Z.abs (n - 1))))).
    { apply Forall_app. split; [ by apply word_lit | ].
      apply Forall_app. split; [ destruct (n <? 0); by repeat constructor | ].
      apply decimal_word. }
    repeat case_match; rewrite ?Forall_app; repeat split;
      auto using Forall_take, Forall_drop, word_lit, decimal_word;
      by repeat constructor.
Qed.

Lemma serializeNumber_word n :
  Forall (fun c => word_char c = true) (serializeNumber n).
Proof.
  unfold serializeNumber. case_match; auto using Number_toString_word, word_lit.
Qed.

Lemma serializeDouble_word n :
  Forall (fun c => word_char c = true) (serializeDouble n).
Proof.
  unfold serializeDouble. repeat case_match; rewrite ?Forall_app;
    repeat split; auto using Number_toString_word, word_lit.
Qed.

(** *** No control character *)












(** ** The reflow pass on a scalar *)

Lemma scan_word indent t : forall prev depth,
  Forall (fun c => word_char c = true) t ->
  scan indent prev Out depth t = Ok t.
Proof.
  induction t as [|c t IH]; intros prev depth Ht; [ done | ].
  apply Forall_cons in Ht as [Hc Ht].
  apply word_char_spec in Hc as (Hin & Hcomma & Hcolon & _).
  apply inert_spec in Hin as (Hdq & _ & Hopen & Hclose & _).
  simpl. rewrite !decide_False by done. rewrite Hopen, Hclose.
  by rewrite IH.
Qed.

Lemma scan_quoted indent prev depth b :
  body_end In b = Some In ->
  scan indent prev Out depth (quoted b) = Ok (quoted b).
Proof.
  intros Hb. unfold quoted.
  change (scan indent prev Out depth (Ch.dquote :: b ++ [Ch.dquote]))
    with (emit [Ch.dquote]
            (scan indent (Some Ch.dquote) In depth (b ++ [Ch.dquote]))).
  rewrite (scan_body indent depth [Ch.dquote] b (Some Ch.dquote) In In)
    by done.
  done.
Qed.

Lemma resolve_toJSON_not_custom v ret : resolve_toJSON v <> VCustom ret.
Proof. induction v using value_ind; simpl; done. Qed.

(** X16: [prettyPrint] leaves the text of a scalar as it is, whatever the
    indent unit, and so does [stringify] with every [space] that has an
    indent unit: a string or a date is not reflowed, whatever brackets,
    commas and colons it holds. *)
Theorem scalar_not_reflowed v t :
  is_scalar v = true -> serializeValue v = Ok (Some t) ->
  (forall indent, prettyPrint t indent = Ok t) /\
  (forall r space indent,
     indent_unit space = Ok indent -> stringify v r space = Ok (Some t)).
Proof.
  intros Hs Hv.
  assert (Hp : forall indent, prettyPrint t indent = Ok t).
  { intros indent. rewrite scan_prettyPrint.
    unfold is_scalar in Hs. rewrite serializeValue_resolve in Hv.
    destruct (resolve_toJSON v)
      as [| |b|n|z|s| | |n tj|tv|ret|items|props|mprops|err]
      eqn:E; try done; cbn [serializeValue] in Hv.
    - apply Ok_inj, Some_inj in Hv as <-. by apply scan_word, word_lit.
    - apply Ok_inj, Some_inj in Hv as <-.
      destruct b; by apply scan_word, word_lit.
    - apply Ok_inj, Some_inj in Hv as <-. apply scan_word, serializeNumber_word.
    - apply Ok_inj, Some_inj in Hv as <-.
      apply scan_quoted, body_end_escapeString.
    - apply Ok_inj, Some_inj in Hv as <-. apply scan_word, serializeDouble_word.
    - apply bind_Ok_inv in Hv as (iso & Hiso & <-%Ok_inj%Some_inj).
      by eapply scan_quoted, body_end_inert, toISOString_inert.
    - by apply resolve_toJSON_not_custom in E.
    - apply Ok_inj, Some_inj in Hv as <-. by apply scan_word, word_lit. }
  split; [ done | ].
  intros r space indent Hi.
  rewrite (stringify_indent_unit v r space t indent Hv Hi).
  case_bool_decide; [ done | ]. by rewrite Hp.
Qed.

Lemma scalar_not_reflowed_witness :
  (forall indent, prettyPrint (quoted (lit "[1,{a:2}]")) indent
                  = Ok (quoted (lit "[1,{a:2}]"))) /\
  (forall r space indent,
     indent_unit space = Ok indent ->
     stringify (VCustom (VString (lit "[1,{a:2}]"))) r space
     = Ok (Some (quoted (lit "[1,{a:2}]")))).
Proof.
  apply (scalar_not_reflowed (VCustom (VString (lit "[1,{a:2}]")))).
  - reflexivity.
  - reflexivity.
Defined.

(** ** The digits of a number *)






(** ** The encoder's text is a JSON text *)












(** ** What [stringify] reads of its arguments *)

Lemma falsy_unit space : falsy space = true -> indent_unit space = Ok [].
Proof.
  destruct space as [|[| | |]|s]; simpl; try done.
  case_bool_decide; [ by subst | done ].
Qed.

Lemma stringify_unit v r space t :
  serializeValue v = Ok (Some t) ->
  stringify v r space
  = indent_unit space ≫= fun ind : list N =>
      if bool_decide (ind = []) then Ok (Some t)
      else prettyPrint t ind ≫= fun pretty : list N => Ok (Some pretty).
Proof.
  intros Hv. unfold stringify. rewrite Hv, bind_Ok.
  destruct (falsy space) eqn:Hf.
  - by rewrite (falsy_unit _ Hf).
  - by destruct space.
Qed.

(** X18: [stringify] does not read the replacer, and reads of [space] its
    indent unit only (the text, or the [RangeError]): two calls on the same
    value with the same indent unit give the same result.  So a count above
    10 is a count of 10, a count with a fraction is its integral part, a
    string is its first 10 characters, and a count is the string of that
    many spaces. *)
Theorem stringify_by_indent_unit v r r' space space' :
  indent_unit space = indent_unit space' ->
  stringify v r space = stringify v r' space'.
Proof.
  intros H. destruct (serializeValue v) as [[t|]|e] eqn:Hv.
  - by rewrite !(stringify_unit v _ _ t Hv), H.
  - unfold stringify. by rewrite Hv.
  - unfold stringify. by rewrite Hv.
Qed.

Lemma stringify_by_indent_unit_witness :
  stringify (VArray [Some (VNumber (num 1))]) None (SpaceNum (num 12))
  = stringify (VArray [Some (VNumber (num 1))])
      (Some (fun _ v => v)) (SpaceStr (lit "          and more")).
Proof.
  apply (stringify_by_indent_unit (VArray [Some (VNumber (num 1))])).
  reflexivity.
Defined.

(** ** Values without a JSON form inside arrays and objects *)




(** ** When the reflow pass throws *)

Lemma emit_returns chunk (r : completion text) (b : bool) :
  (if b then exists out, r = Ok out else r = Throw RangeError) ->
  if b then exists out, emit chunk r = Ok out
  else emit chunk r = Throw RangeError.
Proof.
  destruct b; [ intros [out ->]; simpl; eauto | by intros -> ].
Qed.

(** The depth of the pass does not count an opening bracket that a closing
    bracket follows at once, nor that closing bracket; [open] is the number
    of brackets open. *)
Lemma scan_closers indent t : forall prev st depth open,
  0 <= depth ->
  (st = Out ->
   open = depth + (if is_open prev && is_close (head t) then 1 else 0)) ->
  (st <> Out -> open = depth) ->
  if closers_matched st open t
  then exists out, scan indent prev st depth t = Ok out
  else scan indent prev st depth t = Throw RangeError.
Proof.
  induction t as [|c t IH]; intros prev st depth open Hd Hout Hin;
    [ simpl; eauto | ].
  destruct st.
  - specialize (Hout eq_refl). clear Hin. cbn [closers_matched scan].
    change (head (c :: t)) with (Some c) in Hout.
    destruct (decide (c = Ch.dquote)) as [->|Hdq].
    { apply emit_returns, IH; [ done | done | ].
      intros _. rewrite Hout. by rewrite andb_false_r, Z.add_0_r. }
    destruct (is_open (Some c)) eqn:Hopen.
    { rewrite (open_not_close _ Hopen), andb_false_r, Z.add_0_r in Hout.
      subst open. destruct (is_close (head t)) eqn:Hnext; simpl negb; cbv iota.
      - apply emit_returns, IH; [ done | | done ].
        intros _. by rewrite Hopen, ?Hnext.
      - rewrite str_repeat_Ok, bind_Ok by lia.
        apply emit_returns, IH; [ lia | | done ].
        intros _. rewrite ?Hnext, andb_false_r. lia. }
    destruct (is_close (Some c)) eqn:Hclose.
    { rewrite andb_true_r in Hout.
      assert (Hnext : is_open (Some c) && is_close (head t) = false)
        by (by rewrite Hopen).
      destruct (is_open prev) eqn:Hprev; simpl negb; cbv iota.
      - rewrite (proj2 (Z.ltb_lt 0 open)) by lia. simpl andb.
        apply emit_returns, IH; [ done | | done ].
        intros _. rewrite Hnext. lia.
      - rewrite Z.add_0_r in Hout. subst open.
        destruct (Z.ltb_spec 0 depth) as [Hpos|Hzero]; simpl andb.
        + rewrite str_repeat_Ok, bind_Ok by lia.
          apply emit_returns, IH; [ lia | | done ].
          intros _. rewrite Hnext. lia.
        + unfold str_repeat. by rewrite (proj2 (Z.ltb_lt _ _)) by lia. }
    rewrite andb_false_r, Z.add_0_r in Hout. subst open.
    assert (Hnext : is_open (Some c) && is_close (head t) = false)
      by (by rewrite Hopen).
    destruct (decide (c = Ch.comma)) as [->|_].
    { rewrite str_repeat_Ok, bind_Ok by lia.
      apply emit_returns, IH; [ done | | done ].
      intros _. rewrite Hnext. lia. }
    destruct (decide (c = Ch.colon)) as [->|_];
      (apply emit_returns, IH; [ done | | done ]);
      intros _; rewrite Hnext; lia.
  - rewrite (Hin ltac:(done)). cbn [closers_matched scan].
    apply emit_returns, IH; [ done | | done ].
    intros Hst. unfold in_string_step in Hst.
    destruct (decide (c = Ch.backslash)); [ done | ].
    destruct (decide (c = Ch.dquote)) as [->|]; [ | done ].
    simpl. lia.
  - rewrite (Hin ltac:(done)). cbn [closers_matched scan].
    apply emit_returns, IH; [ done | done | done ].
Qed.

(** X20: [prettyPrint] on any text, with any indent unit: it returns when no
    closing bracket outside the string literals comes before an opening
    bracket that it can close, and throws the [RangeError] of [repeat] on a
    negative count otherwise.  The kinds of the brackets and all the rest
    of the text play no role. *)
Theorem prettyPrint_returns json indent :
  if closers_matched Out 0 json
  then exists out, prettyPrint json indent = Ok out
  else prettyPrint json indent = Throw RangeError.
Proof.
  rewrite scan_prettyPrint. by apply scan_closers.
Qed.

(** ** The further properties on examples *)


(** An array nested three deep, with a [toJSON] that throws after the
    deepest place: with room for two calls the stack is exhausted first. *)
Example serializeValue_within_ex :
  let v := VArray [Some (VArray [Some (VNumber (num 1))]);
                   Some (VThrowing TypeError)] in
  nesting v = 3%nat /\
  serializeValue_within 2 v = Throw RangeError /\
  serializeValue_within 3 v = Throw TypeError /\
  serializeValue v = Throw TypeError.
Proof. repeat split; reflexivity. Qed.

(** The [toJSON] of a wrapped number is not called, so what it throws and
    an invalid date behind it are not reached. *)
Example serializeValue_throws_double :
  serializeValue (VDouble num_5 (Some (VDate None))) = Ok (Some (lit "5.0")) /\
  serializeValue (VDouble num_5 (Some (VThrowing TypeError)))
  = Ok (Some (lit "5.0")).
Proof. split; reflexivity. Qed.


(** Counts of 2.5, 10.9, 1e21, -0.5 and -1.5. *)
Example indent_unit_number_ex :
  indent_unit (SpaceNum (Finite false 25 1)) = Ok (lit "  ") /\
  indent_unit (SpaceNum (Finite false 109 2)) = Ok (lit "          ") /\
  indent_unit (SpaceNum num_1e21) = Ok (lit "          ") /\
  indent_unit (SpaceNum (Finite true 5 0)) = Ok [] /\
  indent_unit (SpaceNum (Finite true 15 1)) = Throw RangeError.
Proof. repeat split; reflexivity. Qed.

Lemma escapeString_unchanged_witness :
  escapeString (lit "a/b c") = lit "a/b c" /\
  escapeString (lit "a" ++ [Ch.tab]) <> lit "a" ++ [Ch.tab].
Proof.
  split.
  - apply (proj2 (proj2 (escapeString_unchanged (lit "a/b c")))).
    by repeat constructor.
  - intros H.
    apply (proj1 (proj2 (escapeString_unchanged (lit "a" ++ [Ch.tab])))) in H.
    apply Forall_app in H as [_ H]. apply Forall_cons in H as [H _].
    discriminate H.
Defined.

Lemma escapeString_round_trip_witness :
  unescape (Ch.backslash :: lit "u001f" ++ Ch.backslash :: lit "n"
            ++ Ch.backslash :: Ch.backslash :: Ch.backslash :: [Ch.dquote])
  = Some [31%N; Ch.newline; Ch.backslash; Ch.dquote].
Proof.
  apply (proj1 (escapeString_round_trip
                  [31%N; Ch.newline; Ch.backslash; Ch.dquote])).
Defined.

(** A closing bracket at depth zero; brackets of different kinds; a
    bracket inside a string literal. *)
Example prettyPrint_returns_ex :
  prettyPrint (lit "[1]]") (lit " ") = Throw RangeError /\
  prettyPrint (lit "[1}") [] = Ok (lit "[" ++ [Ch.newline] ++ lit "1"
                                   ++ [Ch.newline] ++ lit "}") /\
  prettyPrint (quoted (lit "]") ++ lit "]") [] = Throw RangeError /\
  closers_matched Out 0 (quoted (lit "]")) = true.
Proof. repeat split; reflexivity. Qed.

(** The text of a wrapped integral number of 22 digits is no number of the
    grammar of JSON texts: the value is not [json_safe]. *)
Example json_safe_ex :
  json_safe (VDouble num_1e21 None) = false /\
  json_safe (VArray [Some (VNumber (num 1)); None]) = false /\
  json_safe (VNumber num_1e21) = true.
Proof. repeat split; reflexivity. Qed.
